(** * Verification of the chaiNNer extra nodes

    Shallow embedding of the node callbacks of the repository
    (overlay_images_node, morphology_node, images_to_video_node,
    text_as_image_node) and the properties their specification states
    about them.

    Conventions of the embedding:
    - Python integers are [Z]; Python floats are idealised as exact rationals
      ([Q] for coordinate arithmetic, [Qc] for pixel samples, where Leibniz
      equality is numeric equality).  Every float the coordinate code forms is
      a multiple of 1/200 of an integer, so for image sizes below 2^40 the
      truncations and roundings of the exact value and of the float agree.
    - numpy arrays are references into a store of buffers; slicing yields a
      view on the same buffer, [copy] and the host helpers allocate.
    - Exceptions are values of [exn]; a computation returns its outcome
      together with the store it leaves behind. *)

From Stdlib Require Import ZArith QArith Qcanon Qround Lia Bool.
From Stdlib Require Import Strings.String Strings.Ascii.
From stdpp Require Import base list.

Local Open Scope Z_scope.

(* ===================================================================== *)
(** ** Python and numpy number conversions                                *)
(* ===================================================================== *)

(** [int(f)] on a float, and numpy's [.astype("int")]: truncation toward
    zero. *)
Definition py_int (q : Q) : Z := Z.quot (Qnum q) (Zpos (Qden q)).

(** [round(f)] on a float: Python 3 rounds halves to the even neighbour. *)
Definition py_round (q : Q) : Z :=
  let f := Qfloor q in
  match Qcompare (q - inject_Z f) (1 # 2) with
  | Lt => f
  | Gt => f + 1
  | Eq => if Z.even f then f else f + 1
  end.

(* ===================================================================== *)
(** ** overlay_images.py: position modes and anchor factors               *)
(* ===================================================================== *)

Inductive OverlayPosition : Type :=
  | TOP_LEFT
  | TOP_CENTERED
  | TOP_RIGHT
  | CENTERED_LEFT
  | CENTERED
  | CENTERED_RIGHT
  | BOTTOM_LEFT
  | BOTTOM_CENTERED
  | BOTTOM_RIGHT
  | PERCENT_OFFSET
  | PIXEL_OFFSET.

(** [OVERLAY_X0_Y0_FACTORS]: the (x, y) factor pair of each mode. *)
Definition OVERLAY_X0_Y0_FACTORS (p : OverlayPosition) : Q * Q :=
  match p with
  | TOP_LEFT => (0, 0)
  | TOP_CENTERED => (1 # 2, 0)
  | TOP_RIGHT => (1, 0)
  | CENTERED_LEFT => (0, 1 # 2)
  | CENTERED => (1 # 2, 1 # 2)
  | CENTERED_RIGHT => (1, 1 # 2)
  | BOTTOM_LEFT => (0, 1)
  | BOTTOM_CENTERED => (1 # 2, 1)
  | BOTTOM_RIGHT => (1, 1)
  | PERCENT_OFFSET => (1, 1)
  | PIXEL_OFFSET => (0, 0)
  end%Q.

(** The nine modes served by the factor table (the [else] branch of the
    anchor computation). *)
Definition is_fixed (p : OverlayPosition) : bool :=
  match p with
  | PERCENT_OFFSET | PIXEL_OFFSET => false
  | _ => true
  end.

(** Exceptions the nodes and the helpers they call can raise. *)
Inductive axis : Type := AxisX | AxisY.

Inductive exn : Type :=
  | OffsetAssertion (a : axis) (lo hi : Z)
      (* AssertionError "X|Y offset must be in lo..hi range" *)
  | HostAssertion (msg : string)
      (* AssertionError raised inside a host helper *)
  | BroadcastError
      (* ValueError: could not broadcast input array into shape *)
  | IndexError
      (* IndexError: index out of bounds for an axis *)
  | NotEnoughImages
      (* AssertionError "Not enough images to generate a video" *)
  | ErroneousFile (name : string).
      (* AssertionError "erroneous file: name" *)

Inductive result (A : Type) : Type :=
  | Ok (a : A)
  | Raise (e : exn).
Arguments Ok {A} a.
Arguments Raise {A} e.

(** Lines 164-168: percent-offset anchor on one axis. *)
Definition percent_anchor (percent base_dim overlay_dim : Z) : Z :=
  py_int ((50 + inject_Z percent / 2) * inject_Z base_dim / 100
          - inject_Z overlay_dim / 2)%Q.

(** Lines 170-173: pixel-offset anchor on one axis. *)
Definition pixel_anchor (px base_dim overlay_dim : Z) : Z :=
  py_round (inject_Z px + inject_Z (base_dim - overlay_dim) / 2)%Q.

(** Lines 175 and 181: [max_dim = int((base_dim + overlay_dim) / 2)]. *)
Definition max_dim (base_dim overlay_dim : Z) : Z :=
  py_int (inject_Z (base_dim + overlay_dim) / 2)%Q.

(** Lines 188-191: anchor of a fixed mode on one axis, the product with the
    factor cast to integer. *)
Definition fixed_anchor (factor : Q) (base_dim overlay_dim : Z) : Z :=
  py_int (inject_Z (base_dim - overlay_dim) * factor)%Q.

(** Lines 164-191: the anchor [(x0, y0)], or the assertion that rejects a
    pixel offset.  The X assertion is checked before the Y assertion. *)
Definition overlay_anchor (overlay_position : OverlayPosition)
    (base_width base_height overlay_width overlay_height : Z)
    (x_percent y_percent x_px y_px : Z) : result (Z * Z) :=
  match overlay_position with
  | PERCENT_OFFSET =>
      Ok (percent_anchor x_percent base_width overlay_width,
          percent_anchor y_percent base_height overlay_height)
  | PIXEL_OFFSET =>
      let x0 := pixel_anchor x_px base_width overlay_width in
      let y0 := pixel_anchor y_px base_height overlay_height in
      let max_x := max_dim base_width overlay_width in
      if negb ((-1 * max_x <? x_px) && (x_px <? max_x))
      then Raise (OffsetAssertion AxisX (1 - max_x) (max_x - 1))
      else
        let max_y := max_dim base_height overlay_height in
        if negb ((-1 * max_y <? y_px) && (y_px <? max_y))
        then Raise (OffsetAssertion AxisY (1 - max_y) (max_y - 1))
        else Ok (x0, y0)
  | _ =>
      let (fx, fy) := OVERLAY_X0_Y0_FACTORS overlay_position in
      Ok (fixed_anchor fx base_width overlay_width,
          fixed_anchor fy base_height overlay_height)
  end.

(** Lines 192-196: the intersection of the overlay's footprint with the
    base, as [(i_x0, i_x1, i_y0, i_y1)]. *)
Definition intersection (x0 y0 base_width base_height
    overlay_width overlay_height : Z) : Z * Z * Z * Z :=
  let x1 := x0 + overlay_width in
  let y1 := y0 + overlay_height in
  (Z.max 0 x0, Z.min x1 base_width, Z.max 0 y0, Z.min y1 base_height).

(** Line 197: the test that lets the blending run. *)
Definition overlaps (i : Z * Z * Z * Z) : bool :=
  let '(i_x0, i_x1, i_y0, i_y1) := i in
  (0 <=? i_x0) && (i_x0 <? i_x1) && (0 <=? i_y0) && (i_y0 <? i_y1).

(* ===================================================================== *)
(** ** The store of array buffers                                         *)
(* ===================================================================== *)

(** A pixel is its list of samples (1 grey, 3 BGR or 4 BGRA); a buffer maps
    (row, column) to a pixel.  A 2-D grey array and an (H, W, 1) array are
    both buffers of one-sample pixels. *)
Definition pixel : Type := list Qc.
Definition grid : Type := Z -> Z -> pixel.

(** The store: buffer number [l] is the [l]-th buffer allocated. *)
Abbreviation heap := (list grid).

Definition empty_grid : grid := fun _ _ => [].

Definition fetch (h : heap) (l : nat) : grid :=
  match h !! l with
  | Some g => g
  | None => empty_grid
  end.

(** An array object: the buffer it views, the window of the view and the
    shape reported by [get_h_w_c]. *)
Record ndarray : Type := mk_ndarray {
  buf : nat;
  off_y : Z;
  off_x : Z;
  height : Z;
  width : Z;
  channels : Z
}.

(** Computations over a state [S] that may raise: the outcome and the state
    left behind. *)
Definition state_exn (S A : Type) : Type := S -> result A * S.

Definition ret {S A} (a : A) : state_exn S A := fun s => (Ok a, s).

Definition raise {S A} (e : exn) : state_exn S A := fun s => (Raise e, s).

Definition bind {S A B} (m : state_exn S A) (k : A -> state_exn S B)
    : state_exn S B :=
  fun s =>
    match m s with
    | (Ok a, s') => k a s'
    | (Raise e, s') => (Raise e, s')
    end.

Declare Scope np_scope.
Delimit Scope np_scope with np.
Notation "x <- m ;; k" := (bind m (fun x => k))
  (at level 100, m at next level, right associativity) : np_scope.
Notation "m ;;; k" := (bind m (fun _ => k))
  (at level 100, right associativity) : np_scope.
Local Open Scope np_scope.

Definition lift {S A} (r : result A) : state_exn S A := fun s => (r, s).

(** [assert cond, msg] *)
Definition py_assert {S} (cond : bool) (e : exn) : state_exn S unit :=
  if cond then ret tt else raise e.

(** Computations over the store of array buffers. *)
Definition M (A : Type) : Type := state_exn heap A.

(** A new buffer, numbered after the existing ones. *)
Definition alloc (g : grid) : M nat := fun h => (Ok (length h), h ++ [g]).

(** The pixels an array shows, indexed from its own origin. *)
Definition view (h : heap) (a : ndarray) : grid :=
  fun y x => fetch h (buf a) (off_y a + y) (off_x a + x).

Definition load (a : ndarray) : M grid := fun h => (Ok (view h a), h).

(** Overwrite the buffer of [a] inside the window of [a]: the pixel shown at
    window position (y, x) becomes [f y x]. *)
Definition store_window (a : ndarray) (f : grid) : M unit :=
  fun h =>
    let old := fetch h (buf a) in
    let new : grid := fun r c =>
      let y := r - off_y a in
      let x := c - off_x a in
      if (0 <=? y) && (y <? height a) && (0 <=? x) && (x <? width a)
      then f y x else old r c in
    (Ok tt, <[buf a := new]> h).

(* ===================================================================== *)
(** ** numpy operations used by the nodes                                 *)
(* ===================================================================== *)

(** [get_h_w_c]: the shape, with one channel for a 2-D array. *)
Definition get_h_w_c (a : ndarray) : Z * Z * Z :=
  (height a, width a, channels a).

(** A slice bound of [a[lo:hi]] on an axis of length [len]: negative bounds
    count from the end, and the bound is clamped to the axis. *)
Definition slice_index (len i : Z) : Z :=
  let i' := if i <? 0 then i + len else i in
  Z.max 0 (Z.min len i').

(** [a[y0:y1, x0:x1]]: a view on the same buffer. *)
Definition np_slice (a : ndarray) (y0 y1 x0 x1 : Z) : ndarray :=
  let ys := slice_index (height a) y0 in
  let ye := slice_index (height a) y1 in
  let xs := slice_index (width a) x0 in
  let xe := slice_index (width a) x1 in
  {| buf := buf a;
     off_y := off_y a + ys;
     off_x := off_x a + xs;
     height := Z.max 0 (ye - ys);
     width := Z.max 0 (xe - xs);
     channels := channels a |}.

(** [a.copy()]: the shown pixels in a buffer of their own. *)
Definition np_copy (a : ndarray) : M ndarray :=
  g <- load a ;;
  l <- alloc g ;;
  ret {| buf := l; off_y := 0; off_x := 0;
         height := height a; width := width a; channels := channels a |}.

Fixpoint update_nth {A} (n : nat) (f : A -> A) (l : list A) : list A :=
  match l, n with
  | [], _ => []
  | a :: l', O => f a :: l'
  | a :: l', S n' => a :: update_nth n' f l'
  end.

(** [a[:, :, k] *= s]: in place, through the view; numpy raises IndexError
    when the array has no channel [k]. *)
Definition imul_channel (a : ndarray) (k : nat) (s : Qc) : M unit :=
  if Z.of_nat k <? channels a then
    g <- load a ;;
    store_window a (fun y x => update_nth k (fun v => (v * s)%Qc) (g y x))
  else raise IndexError.

(** Can an array of extent [src] be broadcast along an axis of extent
    [dst]? *)
Definition broadcastable (src dst : Z) : bool :=
  (src =? dst) || (src =? 1).

Definition bcast_index (src i : Z) : Z := if src =? 1 then 0 else i.

(** The pixel written to a [c_dst]-channel target from a [c_src]-channel
    source pixel. *)
Definition bcast_pixel (c_src c_dst : Z) (p : pixel) : pixel :=
  if c_src =? c_dst then p
  else repeat (nth 0 p 0%Qc) (Z.to_nat c_dst).

(** [dst[...] = src]: numpy raises ValueError unless the shape of [src]
    broadcasts to the shape of [dst]; the source is read before the
    write. *)
Definition np_assign (dst src : ndarray) : M unit :=
  if broadcastable (height src) (height dst)
     && broadcastable (width src) (width dst)
     && broadcastable (channels src) (channels dst)
  then
    g <- load src ;;
    store_window dst (fun y x =>
      bcast_pixel (channels src) (channels dst)
        (g (bcast_index (height src) y) (bcast_index (width src) x)))
  else raise BroadcastError.

(** [np.dstack((a, a, a))] of a one-channel array: a new three-channel
    array. *)
Definition np_dstack3 (a : ndarray) : M ndarray :=
  g <- load a ;;
  l <- alloc (fun y x => let v := nth 0 (g y x) 0%Qc in [v; v; v]) ;;
  ret {| buf := l; off_y := 0; off_x := 0;
         height := height a; width := width a; channels := 3 |}.

(* ===================================================================== *)
(** ** Host helpers called by overlay_images_node                         *)
(* ===================================================================== *)

(** The host application's [nodes.impl] package is not among the sources of
    this repository; its three helpers are modelled here. *)

Definition sane_channels (c : Z) : bool :=
  (c =? 1) || (c =? 3) || (c =? 4).

(** Modelled from the spec: one pixel taken to BGRA; a grey sample is
    replicated, and a pixel without alpha receives the opaque alpha 1.0. *)
Definition bgra_pixel (in_c : Z) (p : pixel) : pixel :=
  if in_c =? 1 then
    let g := nth 0 p 0%Qc in [g; g; g; 1%Qc]
  else if in_c =? 3 then
    [nth 0 p 0%Qc; nth 1 p 0%Qc; nth 2 p 0%Qc; 1%Qc]
  else p.

(** Modelled from the spec: [convert_to_BGRA(img, in_c)] of the host,
    "duplicating channels to reach 3, or adding an opaque alpha plane to
    reach 4".  It asserts that [in_c] is 1, 3 or 4 and returns a newly
    allocated four-channel array. *)
Definition convert_to_BGRA (img : ndarray) (in_c : Z) : M ndarray :=
  py_assert (sane_channels in_c)
    (HostAssertion "Number of channels unexpected") ;;;
  g <- load img ;;
  l <- alloc (fun y x => bgra_pixel in_c (g y x)) ;;
  ret {| buf := l; off_y := 0; off_x := 0;
         height := height img; width := width img; channels := 4 |}.

(** Modelled from the spec: [as_2d_grayscale(img)] of the host returns the
    one-channel image it is given, without copying, and rejects any other
    shape. *)
Definition as_2d_grayscale (img : ndarray) : M ndarray :=
  py_assert (channels img =? 1) (HostAssertion "Invalid image shape") ;;;
  ret img.

(** Modelled from the spec: the colour samples of a pixel as B, G, R. *)
Definition as_bgr (p : pixel) : pixel :=
  match p with
  | [g] => [g; g; g]
  | b :: g :: r :: _ => [b; g; r]
  | _ => p
  end.

(** Modelled from the spec: the alpha of a pixel; pixels without an alpha
    sample are opaque. *)
Definition alpha_of (p : pixel) : Qc :=
  match p with
  | [_; _; _; a] => a
  | _ => 1%Qc
  end.

(** Modelled from the spec: straight alpha compositing of one sample,
    [out = overlay_rgb * overlay_a + base_rgb * (1 - overlay_a)]. *)
Definition straight_alpha (o_a o b : Qc) : Qc :=
  (o * o_a + b * (1 - o_a))%Qc.

(** Modelled from the spec: one blended pixel with [target_c] channels.  The
    colour samples follow [straight_alpha]; a four-channel result carries
    the composite alpha. *)
Definition blend_pixel (target_c : Z) (o b : pixel) : pixel :=
  let o_a := alpha_of o in
  let colour := zip_with (straight_alpha o_a) (as_bgr o) (as_bgr b) in
  if target_c =? 4
  then colour ++ [(o_a + alpha_of b * (1 - o_a))%Qc]
  else firstn (Z.to_nat target_c) colour.

(** Modelled from the spec: [blend_images(overlay, base, BlendMode.NORMAL)]
    of the host.  Both layers must have the same height and width and 1, 3
    or 4 channels; the result is a newly allocated array whose channel count
    is the larger of the two. *)
Definition blend_images (overlay base : ndarray) : M ndarray :=
  py_assert ((height overlay =? height base)
             && (width overlay =? width base))
    (HostAssertion
       "The overlay and the base image must have the same size") ;;;
  py_assert (sane_channels (channels overlay))
    (HostAssertion
       "The overlay layer has to be a grayscale, RGB, or RGBA image") ;;;
  py_assert (sane_channels (channels base))
    (HostAssertion
       "The base layer has to be a grayscale, RGB, or RGBA image") ;;;
  let target_c := Z.max (channels overlay) (channels base) in
  o <- load overlay ;;
  b <- load base ;;
  l <- alloc (fun y x => blend_pixel target_c (o y x) (b y x)) ;;
  ret {| buf := l; off_y := 0; off_x := 0;
         height := height base; width := width base;
         channels := target_c |}.

(* ===================================================================== *)
(** ** overlay_images.py: overlay_images_node                             *)
(* ===================================================================== *)

(** Lines 215-219, "Apply opacity": unless the opacity is 100 and the
    overlay already has four channels, the overlay is taken to BGRA and its
    alpha plane is scaled in place by [opacity / 100]. *)
Definition apply_opacity (overlay : ndarray) (opacity : Qc)
    (overlay_channel_count : Z) : M ndarray :=
  if negb (Qc_eq_bool opacity (Q2Qc 100) && (overlay_channel_count =? 4))
  then
    overlay <- convert_to_BGRA overlay overlay_channel_count ;;
    let opacity := (opacity / Q2Qc 100)%Qc in
    imul_channel overlay 3 opacity ;;;
    ret overlay
  else ret overlay.

(** Lines 228-236, "Blended area and output shall have the same channel
    count": the output is upgraded when the blended region has more
    channels than the base. *)
Definition match_channels (output : ndarray)
    (base_channel_count blended_channel_count : Z) : M ndarray :=
  if base_channel_count <? blended_channel_count then
    if blended_channel_count =? 4
    then convert_to_BGRA output base_channel_count
    else
      output <- as_2d_grayscale output ;;
      np_dstack3 output
  else ret output.

(** Lines 192-241: clip the footprint anchored at [(x0, y0)], blend the
    overlapping region and write it into a copy of the base. *)
Definition overlay_blend (base overlay : ndarray) (opacity : Qc)
    (x0 y0 : Z) : M ndarray :=
  let '(base_height, base_width, base_channel_count) := get_h_w_c base in
  let '(overlay_height, overlay_width, overlay_channel_count) :=
    get_h_w_c overlay in
  let '(i_x0, i_x1, i_y0, i_y1) :=
    intersection x0 y0 base_width base_height
      overlay_width overlay_height in
  if negb (overlaps (i_x0, i_x1, i_y0, i_y1)) then ret base
  else
    let ov_x0 := Z.max 0 (-1 * x0) in
    let ov_x1 := ov_x0 + i_x1 - i_x0 in
    let ov_y0 := Z.max 0 (-1 * y0) in
    let ov_y1 := ov_y0 + i_y1 - i_y0 in
    (* Crop overlay image *)
    let overlay :=
      if (ov_y1 - ov_y0 >? 0) || (ov_x1 - ov_x0 >? 0)
      then np_slice overlay ov_y0 ov_y1 ov_x0 ov_x1
      else overlay in
    (* Copy base image *)
    base <- np_copy base ;;
    (* Apply opacity *)
    overlay <- apply_opacity overlay opacity overlay_channel_count ;;
    (* Overlay areas *)
    blended_img <-
      blend_images overlay (np_slice base i_y0 i_y1 i_x0 i_x1) ;;
    (* Blended area and output shall have the same channel count *)
    let output := base in
    let blended_channel_count := channels blended_img in
    output <-
      match_channels output base_channel_count blended_channel_count ;;
    (* Overwrite base area *)
    np_assign (np_slice output i_y0 i_y1 i_x0 i_x1) blended_img ;;;
    ret output.

(** Lines 144-241.  The two [print] calls of the pixel-offset branch write
    to the log only and are left out. *)
Definition overlay_images_node (base overlay : ndarray) (opacity : Qc)
    (overlay_position : OverlayPosition)
    (x_percent y_percent x_px y_px : Z) : M ndarray :=
  if Qc_eq_bool opacity 0 then ret base
  else
    let '(base_height, base_width, _) := get_h_w_c base in
    let '(overlay_height, overlay_width, _) := get_h_w_c overlay in
    xy <- lift (overlay_anchor overlay_position
                  base_width base_height overlay_width overlay_height
                  x_percent y_percent x_px y_px) ;;
    overlay_blend base overlay opacity (fst xy) (snd xy).

(* ===================================================================== *)
(** ** morphology.py: morphology_node                                     *)
(* ===================================================================== *)

Inductive MorphOperation : Type :=
  | EROSION
  | DILATION
  | OPENING
  | CLOSING
  | GRADIENT.

Inductive MorphShape : Type :=
  | RECTANGLE
  | ELLIPSE
  | CROSS.

(** The operation codes handed to [cv2.morphologyEx]. *)
Inductive cv2_morph : Type :=
  | MORPH_OPEN
  | MORPH_CLOSE
  | MORPH_GRADIENT.

Section Morphology.

(** OpenCV is a library outside the repository: its four entry points are
    parameters of the node. *)
Variable kernel : Type.
Variable getStructuringElement : MorphShape -> Z * Z -> kernel.
Variable erode : ndarray -> kernel -> Z -> M ndarray.
Variable dilate : ndarray -> kernel -> Z -> M ndarray.
Variable morphologyEx : ndarray -> cv2_morph -> kernel -> Z -> M ndarray.

(** Lines 79-110. *)
Definition morphology_node (img : ndarray)
    (morph_operation : MorphOperation) (morph_shape : MorphShape)
    (radius iterations : Z) : M ndarray :=
  if (radius =? 0) || (iterations =? 0) then ret img
  else
    let size := 2 * radius + 1 in
    let kernel := getStructuringElement morph_shape (size, size) in
    match morph_operation with
    | EROSION => erode img kernel iterations
    | DILATION => dilate img kernel iterations
    | OPENING => morphologyEx img MORPH_OPEN kernel iterations
    | CLOSING => morphologyEx img MORPH_CLOSE kernel iterations
    | GRADIENT => morphologyEx img MORPH_GRADIENT kernel iterations
    end.

End Morphology.

(* ===================================================================== *)
(** ** images_to_video.py                                                 *)
(* ===================================================================== *)

Inductive ImageExtension : Type :=
  | BMP
  | JPEG
  | JPG
  | PNG.

Definition ImageExtension_value (e : ImageExtension) : string :=
  match e with
  | BMP => ".bmp"
  | JPEG => ".jpeg"
  | JPG => ".jpg"
  | PNG => ".png"
  end.

Inductive FrameRate : Type :=
  | FRAME_RATE_23_976_FPS
  | FRAME_RATE_24_FPS
  | FRAME_RATE_25_FPS
  | FRAME_RATE_29_97_FPS
  | FRAME_RATE_30_FPS
  | FRAME_RATE_60_FPS
  | FRAME_RATE_CUSTOM.

Definition FrameRate_value (f : FrameRate) : string :=
  match f with
  | FRAME_RATE_23_976_FPS => "23.976"
  | FRAME_RATE_24_FPS => "24"
  | FRAME_RATE_25_FPS => "25"
  | FRAME_RATE_29_97_FPS => "29.97"
  | FRAME_RATE_30_FPS => "30"
  | FRAME_RATE_60_FPS => "60"
  | FRAME_RATE_CUSTOM => "custom"
  end.

(** *** Strings and paths (POSIX [os.path]) *)

(** [str.lower] on one character of ASCII text: A-Z are lowered and every
    other character is kept.  Python also lowers letters outside ASCII;
    those are outside this model, which is exact on the strings for which
    [str_isascii] holds. *)
Definition ascii_lower (c : ascii) : ascii :=
  let n := nat_of_ascii c in
  if Nat.leb 65 n && Nat.leb n 90 then ascii_of_nat (n + 32) else c.

Fixpoint str_lower (s : string) : string :=
  match s with
  | EmptyString => EmptyString
  | String c s' => String (ascii_lower c) (str_lower s')
  end.

(** [s.isascii()]: every character is below 128. *)
Fixpoint str_isascii (s : string) : bool :=
  match s with
  | EmptyString => true
  | String c s' => Nat.ltb (nat_of_ascii c) 128 && str_isascii s'
  end.

(** [s.rfind(c)] for a character [c], counting from index [i] at the head of
    [s]: the last index holding [c], or -1. *)
Fixpoint rfind_from (i : Z) (c : ascii) (s : string) : Z :=
  match s with
  | EmptyString => -1
  | String a s' =>
      let r := rfind_from (i + 1) c s' in
      if 0 <=? r then r
      else if Ascii.eqb a c then i else -1
  end.

Definition rfind (c : ascii) (s : string) : Z := rfind_from 0 c s.

(** [p[i:]] for [0 <= i]. *)
Definition str_from (i : Z) (s : string) : string :=
  substring (Z.to_nat i) (String.length s - Z.to_nat i) s.

Definition char_at (i : Z) (s : string) : option ascii :=
  String.get (Z.to_nat i) s.

(** The [while] loop of [genericpath._splitext]: is there a character
    other than the dot among the [n] characters from [filenameIndex] on? *)
Fixpoint has_non_dot (n : nat) (filenameIndex : Z) (p : string) : bool :=
  match n with
  | O => false
  | S n' =>
      match char_at filenameIndex p with
      | Some "."%char => has_non_dot n' (filenameIndex + 1) p
      | _ => true
      end
  end.

(** [os.path.splitext(p)[1]]: the suffix from the last dot of the last path
    component, unless that component has only dots before it. *)
Definition splitext_ext (p : string) : string :=
  let sepIndex := rfind "/"%char p in
  let dotIndex := rfind "."%char p in
  if sepIndex <? dotIndex then
    let filenameIndex := sepIndex + 1 in
    if has_non_dot (Z.to_nat (dotIndex - filenameIndex)) filenameIndex p
    then str_from dotIndex p
    else EmptyString
  else EmptyString.

(** Lines 40-41. *)
Definition get_extension (filepath : string) : string :=
  str_lower (splitext_ext filepath).

(** [s.endswith(c)] for a character [c]. *)
Fixpoint str_endswith (c : ascii) (s : string) : bool :=
  match s with
  | EmptyString => false
  | String a EmptyString => Ascii.eqb a c
  | String _ s' => str_endswith c s'
  end.

(** [s.startswith(c)] for a character [c]. *)
Definition str_startswith (c : ascii) (s : string) : bool :=
  match s with
  | String a _ => Ascii.eqb a c
  | EmptyString => false
  end.

(** [os.path.join(a, b)] of two components. *)
Definition path_join (a b : string) : string :=
  if str_startswith "/"%char b then b
  else if (String.length a =? 0)%nat || str_endswith "/"%char a
       then String.append a b
       else String.append a (String "/"%char b).

(** *** The environment of the node *)

(** What the node reads from the file system. *)
Record filesystem : Type := {
  listdir : string -> list string;
  isfile : string -> bool
}.

(** The FFmpeg invocation built at lines 164-180. *)
Record ffmpeg_command : Type := {
  concat_input : string;
  input_rate : string + Q;
  video_output : string;
  preset : option string;
  vcodec : string;
  crf_value : Z
}.

(** What the node does to the outside world, in order. *)
Inductive effect : Type :=
  | WriteFile (path content : string)
  | RunFfmpeg (cmd : ffmpeg_command)
  | RemoveFile (path : string).

Definition V (A : Type) : Type := state_exn (list effect) A.

Definition emit (e : effect) : V unit := fun w => (Ok tt, w ++ [e]).

Definition line_feed : ascii := ascii_of_nat 10.
Definition double_quote : ascii := ascii_of_nat 34.
Definition newline : string := String line_feed EmptyString.

(** [s.split(sep)] on a one-character separator. *)
Fixpoint str_split (sep : ascii) (s : string) : list string :=
  match s with
  | EmptyString => [EmptyString]
  | String a s' =>
      match str_split sep s' with
      | cur :: rest =>
          if Ascii.eqb a sep then EmptyString :: cur :: rest
          else String a cur :: rest
      | [] => [String a EmptyString]
      end
  end.

(** [s.replace(c, '')] for a one-character [c]. *)
Fixpoint str_remove (c : ascii) (s : string) : string :=
  match s with
  | EmptyString => EmptyString
  | String a s' =>
      if Ascii.eqb a c then str_remove c s' else String a (str_remove c s')
  end.

Section ImagesToVideo.

Variable fs : filesystem.
(** [mkdtemp(prefix=...)] and [time.time()] as formatted in the path. *)
Variable mkdtemp : string -> string.
Variable time_now : string.
(** [sorted] on a list of paths. *)
Variable sorted : list string -> list string.
(** The standard error output of the FFmpeg process. *)
Variable ffmpeg_stderr : ffmpeg_command -> string.
(** Group 1 of the regular expression search for the text
    Impossible to open, followed by a quoted name, in a line. *)
Variable impossible_to_open : string -> option string.
(** Removal of the two-character sequence backslash, n. *)
Variable remove_backslash_n : string -> string.

(** Lines 142-146: the loop over the directory content. *)
Definition collect_filepaths (image_extension : ImageExtension)
    (content : list string) : list string :=
  fold_left
    (fun filepaths fp =>
       if isfile fs fp
          && String.eqb (get_extension fp)
               (ImageExtension_value image_extension)
       then filepaths ++ [fp]
       else filepaths)
    content [].

(** Lines 156-157: the lines of the concatenation file. *)
Definition concatenation_text (paths : list string) : string :=
  fold_left
    (fun text p =>
       String.append text
         (String.append "file '"
            (String.append p (String.append "' " newline))))
    paths EmptyString.

(** Lines 191-202: the scan of the error output, last line first; the
    cleaned file name of the first match. *)
Fixpoint detect_error (lines : list string) : option string :=
  match lines with
  | [] => None
  | line :: rest =>
      if negb (str_startswith "["%char line) then detect_error rest
      else
        match impossible_to_open line with
        | Some g =>
            Some (str_remove "'"%char
                    (str_remove double_quote (remove_backslash_n g)))
        | None => detect_error rest
        end
  end.

(** Lines 127-205. *)
Definition images_to_video_node (image_directory : string)
    (image_extension : ImageExtension) (video_directory : string)
    (video_name : string) (framerate : FrameRate)
    (custom_frame_rate : Q) (video_container : string)
    (video_codec : string) (video_preset : string) (crf : Z) : V unit :=
  (* List files *)
  let content :=
    map (path_join image_directory) (listdir fs image_directory) in
  let filepaths := collect_filepaths image_extension content in
  py_assert (5 <=? Z.of_nat (length filepaths)) NotEnoughImages ;;;
  (* Create a concatenation file used by FFmpeg *)
  let concatenation_filepath :=
    path_join (mkdtemp "chaiNNer-") (String.append time_now ".txt") in
  emit (WriteFile concatenation_filepath
          (concatenation_text (sorted filepaths))) ;;;
  (* Output video file *)
  let video_filepath :=
    path_join video_directory
      (String.append video_name (String "."%char video_container)) in
  (* Generate and execute FFmpeg command *)
  let cmd :=
    {| concat_input := concatenation_filepath;
       input_rate :=
         match framerate with
         | FRAME_RATE_CUSTOM => inr custom_frame_rate
         | _ => inl (FrameRate_value framerate)
         end;
       video_output := video_filepath;
       preset :=
         if String.eqb video_preset "none" then None
         else Some video_preset;
       vcodec := video_codec;
       crf_value := crf |} in
  emit (RunFfmpeg cmd) ;;;
  let stderr := ffmpeg_stderr cmd in
  (* Verify that nothing went wrong *)
  erroneous_file <-
    (if (0 <? String.length stderr)%nat then
       match detect_error (rev (str_split line_feed stderr)) with
       | Some f => emit (RemoveFile video_filepath) ;;; ret f
       | None => ret EmptyString
       end
     else ret EmptyString) ;;
  py_assert (String.eqb erroneous_file EmptyString)
    (ErroneousFile erroneous_file).

End ImagesToVideo.

(* ===================================================================== *)
(** ** text_as_image.py                                                   *)
(* ===================================================================== *)

(** The three enumerations of the file share member names with each other
    and with [OverlayPosition]; as in Python each has its own name space. *)
Module TextAsImageFont.
Inductive t : Type :=
  | ROBOTO_REGULAR
  | ROBOTO_BOLD
  | ROBOTO_ITALIC
  | ROBOTO_BOLD_ITALIC
  | ROBOTO_MONO_REGULAR
  | ROBOTO_MONO_BOLD
  | ROBOTO_MONO_ITALIC
  | ROBOTO_MONO_BOLD_ITALIC
  | OPEN_SANS_REGULAR
  | OPEN_SANS_BOLD
  | OPEN_SANS_ITALIC
  | OPEN_SANS_BOLD_ITALIC.
End TextAsImageFont.

Module TextAsImageAlignment.
Inductive t : Type :=
  | LEFT
  | CENTERED
  | RIGHT.
End TextAsImageAlignment.

Module TextAsImagePosition.
Inductive t : Type :=
  | TOP_LEFT
  | TOP_CENTERED
  | TOP_RIGHT
  | CENTERED_LEFT
  | CENTERED
  | CENTERED_RIGHT
  | BOTTOM_LEFT
  | BOTTOM_CENTERED
  | BOTTOM_RIGHT.
End TextAsImagePosition.

(** Lines 36-86, the entry "path" of each font. *)
Definition TEXT_AS_IMAGE_FONTS_path (font_name : TextAsImageFont.t) : string :=
  match font_name with
  | TextAsImageFont.ROBOTO_REGULAR => "Roboto/Roboto-Regular.ttf"
  | TextAsImageFont.ROBOTO_BOLD => "Roboto/Roboto-Bold.ttf"
  | TextAsImageFont.ROBOTO_ITALIC => "Roboto/Roboto-Italic.ttf"
  | TextAsImageFont.ROBOTO_BOLD_ITALIC => "Roboto/Roboto-BoldItalic.ttf"
  | TextAsImageFont.ROBOTO_MONO_REGULAR => "RobotoMono/RobotoMono-Regular.ttf"
  | TextAsImageFont.ROBOTO_MONO_BOLD => "RobotoMono/RobotoMono-Bold.ttf"
  | TextAsImageFont.ROBOTO_MONO_ITALIC => "RobotoMono/RobotoMono-Italic.ttf"
  | TextAsImageFont.ROBOTO_MONO_BOLD_ITALIC =>
      "RobotoMono/RobotoMono-BoldItalic.ttf"
  | TextAsImageFont.OPEN_SANS_REGULAR =>
      "OpenSans/OpenSans-VariableFont_wdth,wght.ttf"
  | TextAsImageFont.OPEN_SANS_BOLD => "OpenSans/OpenSans-Bold.ttf"
  | TextAsImageFont.OPEN_SANS_ITALIC => "OpenSans/OpenSans-Italic.ttf"
  | TextAsImageFont.OPEN_SANS_BOLD_ITALIC => "OpenSans/OpenSans-BoldItalic.ttf"
  end.

(** Lines 130-140: for each position the factors of the image dimension and
    of the text dimension, for x and for y. *)
Definition TEXT_AS_IMAGE_X_Y_REF_FACTORS (position : TextAsImagePosition.t)
    : (Q * Q) * (Q * Q) :=
  match position with
  | TextAsImagePosition.TOP_LEFT => ((0, 1 # 2), (0, 1 # 2))
  | TextAsImagePosition.TOP_CENTERED => ((1 # 2, 0), (0, 1 # 2))
  | TextAsImagePosition.TOP_RIGHT => ((1, - (1 # 2)), (0, 1 # 2))
  | TextAsImagePosition.CENTERED_LEFT => ((0, 1 # 2), (1 # 2, 0))
  | TextAsImagePosition.CENTERED => ((1 # 2, 0), (1 # 2, 0))
  | TextAsImagePosition.CENTERED_RIGHT => ((1, - (1 # 2)), (1 # 2, 0))
  | TextAsImagePosition.BOTTOM_LEFT => ((0, 1 # 2), (1, - (1 # 2)))
  | TextAsImagePosition.BOTTOM_CENTERED => ((1 # 2, 0), (1, - (1 # 2)))
  | TextAsImagePosition.BOTTOM_RIGHT => ((1, - (1 # 2)), (1, - (1 # 2)))
  end%Q.

(** What the node can raise: the two Python errors of its own arithmetic,
    and the exceptions of the host helper it calls. *)
Inductive text_exn : Type :=
  | ZeroDivisionError
  | ValueError
  | HostError (e : exn).

(** [max(lines, key=len)]: the first of the longest lines; [max] of an empty
    sequence is a [ValueError]. *)
Fixpoint longest_from (best : string) (lines : list string) : string :=
  match lines with
  | [] => best
  | line :: lines' =>
      longest_from
        (if (String.length best <? String.length line)%nat then line
         else best)
        lines'
  end.

Definition py_max_by_len (lines : list string) : option string :=
  match lines with
  | [] => None
  | line :: lines' => Some (longest_from line lines')
  end.

(** Python's true division [a / b]; division by zero raises. *)
Definition py_truediv (a b : Q) : option Q :=
  if Qeq_bool b 0 then None else Some (a / b)%Q.

(** Lines 224-226: the font size that fills the image, from the measures
    of the text at size 100; [None] is the [ZeroDivisionError]. *)
Definition font_size (width height w_ref h_ref line_count : Z) : option Z :=
  match py_truediv (inject_Z width * 100) (inject_Z w_ref) with
  | None => None
  | Some qw =>
      let w := py_int qw in
      match py_truediv (inject_Z height * 100)
              (inject_Z (h_ref * line_count)) with
      | None => None
      | Some qh =>
          let h := py_int qh in
          Some (Z.min w h)
      end
  end.

(** Lines 245-246, one coordinate:
    [round(np.sum(np.array([dim, text_dim]) * factors))]. *)
Definition reference_coordinate (factors : Q * Q) (dim text_dim : Z) : Z :=
  py_round (inject_Z dim * fst factors + inject_Z text_dim * snd factors)%Q.

(** Lines 245-246: the point handed to the drawing, which the anchor "mm"
    makes the middle of the text. *)
Definition reference_point (position : TextAsImagePosition.t)
    (width height w_text h_text : Z) : Z * Z :=
  let factors := TEXT_AS_IMAGE_X_Y_REF_FACTORS position in
  (reference_coordinate (fst factors) width w_text,
   reference_coordinate (snd factors) height h_text).

(** The text measured at size 100 for its height, line 221; characters are
    code points below 256, the section sign is number 167. *)
Definition reference_text : string :=
  String "["%char (String (ascii_of_nat 167) (String "]"%char EmptyString)).

Section TextAsImage.

(** Pillow and the directory of the running program are outside the
    repository: they are parameters of the node, and a failure of Pillow
    itself (a missing font file, a size it refuses) is not modelled. *)
Variable font : Type.
(** [os.path.dirname(sys.modules["__main__"].__file__)] *)
Variable main_directory : string.
(** [ImageFont.truetype(font_path, size=...)] *)
Variable truetype : string -> Z -> font.
(** [font.getsize(text)], as (width, height). *)
Variable getsize : font -> string -> Z * Z.
(** [.astype("uint8")] on one sample. *)
Variable astype_uint8 : Q -> Z.
(** Lines 239-240 and 254-265: a new RGBA image of the given size, the
    text drawn on it at the reference point with anchor "mm", and the
    picture read back as a normalised array. *)
Variable draw_text :
  Z * Z -> Z * Z -> string -> font -> TextAsImageAlignment.t -> list Z ->
  M ndarray.

(** Lines 198-268. *)
Definition text_as_image_node (text : string)
    (font_name : TextAsImageFont.t) (font_color : list Q)
    (alignment : TextAsImageAlignment.t) (width height : Z)
    (position : TextAsImagePosition.t)
    : heap -> (text_exn + ndarray) * heap :=
  fun s =>
  let font_path :=
    path_join (path_join main_directory "fonts")
      (TEXT_AS_IMAGE_FONTS_path font_name) in
  let lines := str_split line_feed text in
  let line_count := Z.of_nat (length lines) in
  match py_max_by_len lines with
  | None => (inl ValueError, s)
  | Some max_line =>
      (* Use a text as reference to get max size *)
      let font100 := truetype font_path 100 in
      let w_ref := fst (getsize font100 max_line) in
      let h_ref := snd (getsize font100 reference_text) in
      (* Calculate font size to fill the specified image size *)
      match font_size width height w_ref h_ref line_count with
      | None => (inl ZeroDivisionError, s)
      | Some size =>
          let font := truetype font_path size in
          let '(w_text, h_text) := getsize font max_line in
          let h_text := h_text * line_count in
          let color :=
            map (fun v => astype_uint8 (255 * v)%Q) font_color in
          let '(x_ref, y_ref) :=
            reference_point position width height w_text h_text in
          match
            (img <- draw_text (width, height) (x_ref, y_ref) text font
                      alignment color ;;
             convert_to_BGRA img (channels img)) s
          with
          | (Ok img, s') => (inr img, s')
          | (Raise e, s') => (inl (HostError e), s')
          end
      end
  end.

End TextAsImage.

(* ===================================================================== *)
(** ** Vocabulary of the properties                                       *)
(* ===================================================================== *)

(** *** Placement *)

(** The factor of a mode on the horizontal axis, read off its name: 0 is
    flush to the start edge, 1/2 centred, 1 flush to the end edge. *)
Definition horizontal_factor (p : OverlayPosition) : Q :=
  match p with
  | TOP_LEFT | CENTERED_LEFT | BOTTOM_LEFT => 0
  | TOP_CENTERED | CENTERED | BOTTOM_CENTERED => 1 # 2
  | _ => 1
  end.

Definition vertical_factor (p : OverlayPosition) : Q :=
  match p with
  | TOP_LEFT | TOP_CENTERED | TOP_RIGHT => 0
  | CENTERED_LEFT | CENTERED | CENTERED_RIGHT => 1 # 2
  | _ => 1
  end.

(** Does Python's [round] of [d / 2] agree with the truncation of [d / 2]?
    It does when [d] is even, and for an odd [d] when the truncated half is
    even. *)
Definition rounds_like_truncation (d : Z) : bool :=
  Z.even d || Z.even (Z.quot d 2).

(** The bound of the pixel offsets as the specification words it:
    [max_dim = round((base_dim + overlay_dim) / 2)]. *)
Definition spec_max_dim (base_dim overlay_dim : Z) : Z :=
  py_round (inject_Z (base_dim + overlay_dim) / 2)%Q.

(** The permitted range [(1 - max_dim) .. (max_dim - 1)] of the
    specification. *)
Definition offset_in_range (px base_dim overlay_dim : Z) : Prop :=
  1 - spec_max_dim base_dim overlay_dim <= px
  <= spec_max_dim base_dim overlay_dim - 1.

(** The node raises one of its two offset assertions. *)
Definition raises_offset_assertion {A} (r : result A) : Prop :=
  exists a lo hi, r = Raise (OffsetAssertion a lo hi).

(** Does the call reach the blending (lines 200-241)?  It does when the
    opacity is not 0, the offsets pass validation and the footprint meets
    the base. *)
Definition blending_runs (base overlay : ndarray) (opacity : Qc)
    (p : OverlayPosition) (x_percent y_percent x_px y_px : Z) : bool :=
  negb (Qc_eq_bool opacity 0)
  && match overlay_anchor p (width base) (height base)
             (width overlay) (height overlay)
             x_percent y_percent x_px y_px with
     | Ok (x0, y0) =>
         overlaps (intersection x0 y0 (width base) (height base)
                     (width overlay) (height overlay))
     | Raise _ => false
     end.

(** *** Pixels *)

(** The overlay pixel as it enters the blending: unchanged when the opacity
    is 100 and the overlay has four channels, otherwise taken to BGRA with
    its alpha scaled by [opacity / 100]. *)
Definition opacity_applied (opacity : Qc) (c : Z) (p : pixel) : pixel :=
  if Qc_eq_bool opacity (Q2Qc 100) && (c =? 4) then p
  else update_nth 3 (fun v => (v * (opacity / Q2Qc 100))%Qc) (bgra_pixel c p).

(** Is the position (y, x) of the base inside the rectangle
    [(i_x0, i_x1, i_y0, i_y1)]? *)
Definition inside (i : Z * Z * Z * Z) (y x : Z) : bool :=
  let '(i_x0, i_x1, i_y0, i_y1) := i in
  (i_y0 <=? y) && (y <? i_y1) && (i_x0 <=? x) && (x <? i_x1).

(** Two pixels that show the same: the same colour samples B, G and R (a
    grey sample counting for all three) and the same alpha (a pixel without
    an alpha sample being opaque). *)
Definition same_pixel (p q : pixel) : Prop :=
  as_bgr p = as_bgr q /\ alpha_of p = alpha_of q.

(** An image of the store: its buffer exists, it has 1, 3 or 4 channels and
    every pixel it shows has that many samples. *)
Definition well_formed (h : heap) (a : ndarray) : Prop :=
  (buf a < length h)%nat
  /\ sane_channels (channels a) = true
  /\ forall y x, 0 <= y < height a -> 0 <= x < width a ->
       Z.of_nat (length (view h a y x)) = channels a.

(** A fully opaque image: every pixel it shows has alpha 1.0. *)
Definition fully_opaque (h : heap) (a : ndarray) : Prop :=
  forall y x, 0 <= y < height a -> 0 <= x < width a ->
    alpha_of (view h a y x) = 1%Qc.

(** *** Framing *)

(** An array whose buffer was allocated after the store was [h0]. *)
Definition fresh_array (h0 : heap) (a : ndarray) : Prop :=
  (length h0 <= buf a)%nat.

(** [respects h0 m Q E]: run from any store that extends [h0], [m] leaves a
    store that still extends [h0] (the buffers of [h0] are where and what
    they were), and returns a value in [Q] or raises an exception in [E]. *)
Definition respects (h0 : heap) {A} (m : M A)
    (Q : A -> Prop) (E : exn -> Prop) : Prop :=
  forall h, h0 `prefix_of` h ->
    h0 `prefix_of` snd (m h)
    /\ match fst (m h) with
       | Ok a => Q a
       | Raise e => E e
       end.

(** The shape of [r] is that of [a], with [c] channels. *)
Definition same_extent (a r : ndarray) (c : Z) : Prop :=
  height r = height a /\ width r = width a /\ channels r = c.

(** The exceptions of the host helpers and of numpy, as opposed to the
    offset assertions of the node. *)
Definition not_offset_assertion (e : exn) : Prop :=
  match e with
  | OffsetAssertion _ _ _ => False
  | _ => True
  end.

(** *** Frames of a video *)

(** The files of a directory that the video node accepts as frames: the
    regular files whose extension, lower-cased, is the selected one. *)
Definition is_frame (fs : filesystem) (image_extension : ImageExtension)
    (fp : string) : bool :=
  isfile fs fp
  && String.eqb (get_extension fp) (ImageExtension_value image_extension).

Definition frames_of (fs : filesystem) (image_directory : string)
    (image_extension : ImageExtension) : list string :=
  filter (fun fp => is_frame fs image_extension fp = true)
    (map (path_join image_directory) (listdir fs image_directory)).

(** *** Sample data *)

(** Sample data for concrete checks: a store of four uniformly coloured
    buffers (number 0 is BGR, 1 is opaque BGRA, 2 is BGR, 3 is grey),
    viewed as images of chosen sizes. *)
Definition flat (p : pixel) : grid := fun _ _ => p.

Definition half : Qc := Q2Qc (1 # 2).

(** An opacity of 50 percent. *)
Definition fifty : Qc := Q2Qc 50.

Definition sample_store : heap :=
  [flat [half; 0%Qc; 1%Qc];
   flat [0%Qc; half; half; 1%Qc];
   flat [1%Qc; 1%Qc; 0%Qc];
   flat [half]].

Definition image_at (l : nat) (h w c : Z) : ndarray :=
  {| buf := l; off_y := 0; off_x := 0;
     height := h; width := w; channels := c |}.

(** A sample directory: three PNG frames (one with an upper-case
    extension), a JPG frame, a text file and a sub-directory named like a
    frame. *)
Definition sample_directory : filesystem :=
  {| listdir := fun _ =>
       ["a.png"; "b.PNG"; "c.jpg"; "notes.txt"; "d.png"; "sub.png"]%string;
     isfile := fun fp => negb (String.eqb fp "frames/sub.png") |}.

(** The string of [n] dots. *)
Fixpoint dots (n : nat) : string :=
  match n with
  | O => EmptyString
  | S n' => String "."%char (dots n')
  end.




(* ===================================================================== *)
(** * Properties                                                          *)
(* ===================================================================== *)

(** ** Coordinate arithmetic *)

Lemma py_int_inject_Z (z : Z) : py_int (inject_Z z) = z.
Proof. unfold py_int; simpl. apply Z.quot_1_r. Qed.

Lemma py_int_Qeq (q q' : Q) : (q == q')%Q -> py_int q = py_int q'.
Proof.
  destruct q as [a b], q' as [c d]; unfold Qeq, py_int; simpl; intros E.
  rewrite <- (Z.quot_mul_cancel_r a (Z.pos b) (Z.pos d)) by lia.
  rewrite E, (Z.mul_comm (Z.pos b)).
  apply Z.quot_mul_cancel_r; lia.
Qed.

Lemma py_round_Qeq (q q' : Q) : (q == q')%Q -> py_round q = py_round q'.
Proof.
  intros E. unfold py_round.
  rewrite (Qfloor_comp _ _ E).
  assert (E' : (q - inject_Z (Qfloor q') == q' - inject_Z (Qfloor q'))%Q)
    by (rewrite E; reflexivity).
  rewrite (Qcompare_comp _ _ E' (1 # 2) (1 # 2) (Qeq_refl _)).
  reflexivity.
Qed.

Lemma py_round_half (n : Z) :
  py_round (n # 2) =
  if Z.even n then n / 2
  else if Z.even (n / 2) then n / 2 else n / 2 + 1.
Proof.
  unfold py_round.
  change (Qfloor (n # 2)) with (n / 2).
  set (f := n / 2).
  assert (Hn : n = 2 * f + n mod 2) by (unfold f; apply Z.div_mod; lia).
  assert (Hr : 0 <= n mod 2 < 2) by (apply Z.mod_pos_bound; lia).
  rewrite (Zeven_mod n).
  destruct (Z.eqb_spec (n mod 2) 0) as [E0 | E1]; simpl.
  - replace (Qcompare ((n # 2) - inject_Z f) (1 # 2)) with Lt; [reflexivity |].
    symmetry. rewrite <- Qlt_alt. unfold Qlt, Qminus, Qplus, Qopp, inject_Z; simpl. lia.
  - replace (Qcompare ((n # 2) - inject_Z f) (1 # 2)) with Eq; [reflexivity |].
    symmetry. rewrite <- Qeq_alt. unfold Qeq, Qminus, Qplus, Qopp, inject_Z; simpl. lia.
Qed.

Lemma fixed_anchor_0 b o : fixed_anchor 0 b o = 0.
Proof. unfold fixed_anchor, py_int; simpl. rewrite Z.mul_0_r. reflexivity. Qed.

Lemma fixed_anchor_1 b o : fixed_anchor 1 b o = b - o.
Proof. unfold fixed_anchor, py_int; simpl. rewrite Z.mul_1_r. apply Z.quot_1_r. Qed.

Lemma fixed_anchor_half b o : fixed_anchor (1 # 2) b o = Z.quot (b - o) 2.
Proof. unfold fixed_anchor, py_int; simpl. rewrite Z.mul_1_r. reflexivity. Qed.

Lemma percent_anchor_quot p b o :
  percent_anchor p b o = Z.quot ((100 + p) * b - 100 * o) 200.
Proof.
  unfold percent_anchor.
  rewrite (py_int_Qeq _ (((100 + p) * b - 100 * o) # 200)).
  - reflexivity.
  - unfold Qeq, Qminus, Qplus, Qopp, Qdiv, Qmult, Qinv, inject_Z; simpl. lia.
Qed.

Lemma max_dim_quot b o : max_dim b o = Z.quot (b + o) 2.
Proof. unfold max_dim, py_int; simpl. rewrite Z.mul_1_r. reflexivity. Qed.

Lemma pixel_anchor_half px b o :
  pixel_anchor px b o = py_round ((2 * px + (b - o)) # 2).
Proof.
  unfold pixel_anchor. apply py_round_Qeq.
  unfold Qeq, Qminus, Qplus, Qopp, Qdiv, Qmult, Qinv, inject_Z; simpl. lia.
Qed.

(** ** The anchor of the overlay *)

Lemma fixed_anchor_range f b o :
  f = 0%Q \/ f = (1 # 2)%Q \/ f = 1%Q ->
  o <= b -> 0 <= fixed_anchor f b o <= b - o.
Proof.
  intros [-> | [-> | ->]] Hle.
  - rewrite fixed_anchor_0. lia.
  - rewrite fixed_anchor_half.
    assert (H0 : 0 <= Z.quot (b - o) 2) by (apply Z.quot_pos; lia).
    assert (H1 : Z.quot (b - o) 2 <= b - o)
      by (apply Z.quot_le_upper_bound; lia).
    lia.
  - rewrite fixed_anchor_1. lia.
Qed.

Lemma factors_of_fixed p :
  is_fixed p = true ->
  OVERLAY_X0_Y0_FACTORS p = (horizontal_factor p, vertical_factor p).
Proof. destruct p; simpl; intros H; congruence. Qed.

Lemma factor_values p :
  (horizontal_factor p = 0%Q \/ horizontal_factor p = (1 # 2)%Q
   \/ horizontal_factor p = 1%Q)
  /\ (vertical_factor p = 0%Q \/ vertical_factor p = (1 # 2)%Q
      \/ vertical_factor p = 1%Q).
Proof. destruct p; simpl; auto. Qed.

Lemma overlay_anchor_fixed p bw bh ow oh xp yp xpx ypx :
  is_fixed p = true ->
  overlay_anchor p bw bh ow oh xp yp xpx ypx =
  Ok (fixed_anchor (horizontal_factor p) bw ow,
      fixed_anchor (vertical_factor p) bh oh).
Proof. destruct p; simpl; intros H; congruence. Qed.

Lemma intersection_inside x0 y0 bw bh ow oh :
  0 <= x0 -> x0 + ow <= bw -> 0 <= y0 -> y0 + oh <= bh ->
  intersection x0 y0 bw bh ow oh = (x0, x0 + ow, y0, y0 + oh).
Proof.
  intros. unfold intersection.
  rewrite !Z.max_r, !Z.min_l by lia. reflexivity.
Qed.

(** C7, as amended: for each of the nine fixed position modes the factor
    pair of the table is the one the mode's name says (0, 1/2 or 1 on each
    axis), and for all dimensions of base and overlay the anchor on each
    axis is [(base_dim - overlay_dim) * factor] truncated toward zero to an
    integer: where the factor is 1/2 it is the quotient of
    [base_dim - overlay_dim] by 2 rounded toward zero, also when the
    overlay is the larger.  Whenever the overlay is no larger than the base
    and of positive size the intersection rectangle is the whole footprint:
    it starts at the anchor, has size exactly (Wo, Ho), and the blending
    test passes. *)
Theorem fixed_modes_anchor_and_footprint
    (p : OverlayPosition) (bw bh ow oh xp yp xpx ypx : Z) :
  is_fixed p = true ->
  let fx := horizontal_factor p in
  let fy := vertical_factor p in
  let x0 := py_int (inject_Z (bw - ow) * fx) in
  let y0 := py_int (inject_Z (bh - oh) * fy) in
  OVERLAY_X0_Y0_FACTORS p = (fx, fy)
  /\ (fx = 0%Q \/ fx = (1 # 2)%Q \/ fx = 1%Q)
  /\ (fy = 0%Q \/ fy = (1 # 2)%Q \/ fy = 1%Q)
  /\ overlay_anchor p bw bh ow oh xp yp xpx ypx = Ok (x0, y0)
  /\ (fx = (1 # 2)%Q -> x0 = Z.quot (bw - ow) 2)
  /\ (fy = (1 # 2)%Q -> y0 = Z.quot (bh - oh) 2)
  /\ (0 < ow <= bw -> 0 < oh <= bh ->
      intersection x0 y0 bw bh ow oh = (x0, x0 + ow, y0, y0 + oh)
      /\ overlaps (intersection x0 y0 bw bh ow oh) = true).
Proof.
  intros Hp fx fy x0 y0.
  destruct (factor_values p) as [Hfx Hfy].
  split; [apply factors_of_fixed, Hp |].
  split; [exact Hfx |]. split; [exact Hfy |].
  split; [apply overlay_anchor_fixed, Hp |].
  split; [intros E; unfold x0; rewrite E; apply fixed_anchor_half |].
  split; [intros E; unfold y0; rewrite E; apply fixed_anchor_half |].
  intros Hw Hh.
  pose proof (fixed_anchor_range fx bw ow Hfx ltac:(lia)) as Rx.
  pose proof (fixed_anchor_range fy bh oh Hfy ltac:(lia)) as Ry.
  change (fixed_anchor fx bw ow) with x0 in Rx.
  change (fixed_anchor fy bh oh) with y0 in Ry.
  assert (Hi : intersection x0 y0 bw bh ow oh = (x0, x0 + ow, y0, y0 + oh))
    by (apply intersection_inside; lia).
  split; [exact Hi |].
  rewrite Hi. unfold overlaps.
  repeat (apply andb_true_intro; split); lia.
Qed.

Lemma fixed_modes_anchor_and_footprint_witness :
  (overlay_anchor BOTTOM_CENTERED 7 5 4 2 0 0 0 0 = Ok (1, 3)
   /\ intersection 1 3 7 5 4 2 = (1, 5, 3, 5))
  /\ overlay_anchor CENTERED 1 1 4 4 0 0 0 0 = Ok (-1, -1).
Proof.
  split.
  - pose proof (fixed_modes_anchor_and_footprint BOTTOM_CENTERED
                  7 5 4 2 0 0 0 0 eq_refl) as H.
    simpl in H. destruct H as (_ & _ & _ & Ha & _ & _ & Hi).
    split; [exact Ha |]. apply Hi; lia.
  - pose proof (fixed_modes_anchor_and_footprint CENTERED
                  1 1 4 4 0 0 0 0 eq_refl) as H.
    simpl in H. destruct H as (_ & _ & _ & Ha & _).
    exact Ha.
Defined.

(** C7 as stated fails where the product has a fractional part: a base 4
    wide and an overlay 1 wide, centred, are anchored at 1, not at
    3 * 0.5. *)
Lemma anchor_is_truncated_counterexample :
  overlay_anchor CENTERED 4 4 1 1 0 0 0 0 = Ok (1, 1)
  /\ ~ (inject_Z 1 == inject_Z (4 - 1) * fst (OVERLAY_X0_Y0_FACTORS CENTERED))%Q.
Proof.
  split; [reflexivity |].
  unfold Qeq; simpl. lia.
Qed.

(** ** Offsets of zero and the centred mode *)

Lemma percent_anchor_centered b o :
  percent_anchor 0 b o = fixed_anchor (1 # 2) b o.
Proof.
  rewrite percent_anchor_quot, fixed_anchor_half.
  replace ((100 + 0) * b - 100 * o) with ((b - o) * 100) by lia.
  change 200 with (2 * 100).
  apply Z.quot_mul_cancel_r; lia.
Qed.

Lemma py_round_half_quot (d : Z) :
  py_round (d # 2) = Z.quot d 2 <-> rounds_like_truncation d = true.
Proof.
  rewrite py_round_half. unfold rounds_like_truncation.
  rewrite !Zeven_mod.
  destruct (Z.eqb_spec (d mod 2) 0) as [E | E],
           (Z.eqb_spec ((d / 2) mod 2) 0) as [F | F],
           (Z.eqb_spec ((Z.quot d 2) mod 2) 0) as [G | G];
    simpl; split; intros H; try reflexivity; try discriminate;
    revert H; Z.to_euclidean_division_equations; lia.
Qed.

Lemma pixel_anchor_centered b o :
  pixel_anchor 0 b o = fixed_anchor (1 # 2) b o
  <-> rounds_like_truncation (b - o) = true.
Proof.
  rewrite pixel_anchor_half, fixed_anchor_half.
  replace (2 * 0 + (b - o)) with (b - o) by lia.
  apply py_round_half_quot.
Qed.

Lemma max_dim_positive b o : 0 < b -> 0 < o -> 1 <= max_dim b o.
Proof.
  intros Hb Ho. rewrite max_dim_quot.
  apply Z.quot_le_lower_bound; lia.
Qed.

Lemma overlay_anchor_pixel_valid bw bh ow oh xp yp xpx ypx :
  - max_dim bw ow < xpx < max_dim bw ow ->
  - max_dim bh oh < ypx < max_dim bh oh ->
  overlay_anchor PIXEL_OFFSET bw bh ow oh xp yp xpx ypx =
  Ok (pixel_anchor xpx bw ow, pixel_anchor ypx bh oh).
Proof.
  intros Hx Hy. unfold overlay_anchor.
  replace (-1 * max_dim bw ow <? xpx) with true by (symmetry; apply Z.ltb_lt; lia).
  replace (xpx <? max_dim bw ow) with true by (symmetry; apply Z.ltb_lt; lia).
  replace (-1 * max_dim bh oh <? ypx) with true by (symmetry; apply Z.ltb_lt; lia).
  replace (ypx <? max_dim bh oh) with true by (symmetry; apply Z.ltb_lt; lia).
  reflexivity.
Qed.

(** The node depends on the position mode and the offsets through the
    anchor only. *)
Lemma node_anchor_eq base overlay opacity p p' xp yp xpx ypx xp' yp' xpx' ypx' :
  overlay_anchor p (width base) (height base) (width overlay) (height overlay)
    xp yp xpx ypx =
  overlay_anchor p' (width base) (height base) (width overlay)
    (height overlay) xp' yp' xpx' ypx' ->
  overlay_images_node base overlay opacity p xp yp xpx ypx =
  overlay_images_node base overlay opacity p' xp' yp' xpx' ypx'.
Proof.
  intros E. unfold overlay_images_node, get_h_w_c.
  rewrite E. reflexivity.
Qed.

(** Offsets of zero against the centred mode.  Percent-offset mode with
    offsets (0, 0) computes on every base and overlay exactly the anchor
    of the centred mode, and hence the same output.  Pixel-offset mode with
    offsets (0, 0), for images of positive size, does so exactly when on
    each axis [base_dim - overlay_dim] is even or its half truncated toward
    zero is even. *)
Lemma zero_offsets_and_centered
    (base overlay : ndarray) (opacity : Qc) (xp yp xpx ypx : Z) :
  0 < width base -> 0 < height base ->
  0 < width overlay -> 0 < height overlay ->
  let bw := width base in
  let bh := height base in
  let ow := width overlay in
  let oh := height overlay in
  let centered := overlay_anchor CENTERED bw bh ow oh xp yp xpx ypx in
  overlay_anchor PERCENT_OFFSET bw bh ow oh 0 0 xpx ypx = centered
  /\ overlay_images_node base overlay opacity PERCENT_OFFSET 0 0 xpx ypx =
     overlay_images_node base overlay opacity CENTERED xp yp xpx ypx
  /\ (overlay_anchor PIXEL_OFFSET bw bh ow oh xp yp 0 0 = centered
      <-> rounds_like_truncation (bw - ow) = true
          /\ rounds_like_truncation (bh - oh) = true)
  /\ (rounds_like_truncation (bw - ow) = true ->
      rounds_like_truncation (bh - oh) = true ->
      overlay_images_node base overlay opacity PIXEL_OFFSET xp yp 0 0 =
      overlay_images_node base overlay opacity CENTERED xp yp xpx ypx).
Proof.
  intros Hbw Hbh How Hoh bw bh ow oh centered.
  assert (Hpc : overlay_anchor PERCENT_OFFSET bw bh ow oh 0 0 xpx ypx
                = centered).
  { unfold centered; simpl. rewrite !percent_anchor_centered. reflexivity. }
  assert (Hpx : overlay_anchor PIXEL_OFFSET bw bh ow oh xp yp 0 0 =
                Ok (pixel_anchor 0 bw ow, pixel_anchor 0 bh oh)).
  { pose proof (max_dim_positive bw ow Hbw How).
    pose proof (max_dim_positive bh oh Hbh Hoh).
    apply overlay_anchor_pixel_valid; lia. }
  assert (Hiff : overlay_anchor PIXEL_OFFSET bw bh ow oh xp yp 0 0 = centered
                 <-> rounds_like_truncation (bw - ow) = true
                     /\ rounds_like_truncation (bh - oh) = true).
  { rewrite Hpx. unfold centered; simpl.
    rewrite <- !pixel_anchor_centered. split.
    - intros E. injection E as -> ->. split; reflexivity.
    - intros [-> ->]. reflexivity. }
  split; [exact Hpc |].
  split; [apply node_anchor_eq; exact Hpc |].
  split; [exact Hiff |].
  intros Rx Ry. apply node_anchor_eq. apply Hiff. split; assumption.
Qed.

(** C8: the pixel-offset branch diverges from the centred mode.  On a
    base 4 x 4 and an overlay 1 x 1 the centred position is at 1.5: the
    centred mode and percent-offset mode with offsets (0, 0) truncate it
    to the anchor (1, 1), while pixel-offset mode with offsets (0, 0)
    rounds it to (2, 2) (line 171 calls [round] where lines 166-167 and 191
    cast to [int]). *)
Lemma pixel_offset_zero_diverges :
  overlay_anchor PIXEL_OFFSET 4 4 1 1 0 0 0 0 = Ok (2, 2)
  /\ overlay_anchor CENTERED 4 4 1 1 0 0 0 0 = Ok (1, 1)
  /\ overlay_anchor PERCENT_OFFSET 4 4 1 1 0 0 0 0 = Ok (1, 1).
Proof. repeat split; reflexivity. Qed.

(** ** The paths that return the base *)

Lemma Qc_eq_bool_refl (q : Qc) : Qc_eq_bool q q = true.
Proof.
  unfold Qc_eq_bool. destruct (Qcanon.Qc_eq_dec q q); [reflexivity | congruence].
Qed.

Lemma Qc_eq_bool_ne (q q' : Qc) : q <> q' -> Qc_eq_bool q q' = false.
Proof.
  unfold Qc_eq_bool. destruct (Qcanon.Qc_eq_dec q q'); [congruence | reflexivity].
Qed.

(** C4: with opacity 0 the node returns the very array it was given as
    base, for every overlay, position mode and offsets; no cropping,
    blending or validation runs, nothing is raised and the store of buffers
    is left as it was, so every sample of the result is that of the base. *)
Theorem opacity_zero_returns_base
    (base overlay : ndarray) (p : OverlayPosition)
    (xp yp xpx ypx : Z) (h : heap) :
  overlay_images_node base overlay 0%Qc p xp yp xpx ypx h = (Ok base, h).
Proof.
  unfold overlay_images_node. rewrite Qc_eq_bool_refl. reflexivity.
Qed.

Lemma overlay_blend_no_overlap base overlay opacity x0 y0 h :
  overlaps (intersection x0 y0 (width base) (height base)
              (width overlay) (height overlay)) = false ->
  overlay_blend base overlay opacity x0 y0 h = (Ok base, h).
Proof.
  intros Hno. unfold overlay_blend, get_h_w_c.
  destruct (intersection x0 y0 (width base) (height base)
              (width overlay) (height overlay)) as [[[ix0 ix1] iy0] iy1].
  rewrite Hno. reflexivity.
Qed.

Lemma node_after_anchor base overlay opacity p xp yp xpx ypx x0 y0 :
  opacity <> 0%Qc ->
  overlay_anchor p (width base) (height base) (width overlay)
    (height overlay) xp yp xpx ypx = Ok (x0, y0) ->
  overlay_images_node base overlay opacity p xp yp xpx ypx =
  overlay_blend base overlay opacity x0 y0.
Proof.
  intros Hop Ha. unfold overlay_images_node, get_h_w_c.
  rewrite (Qc_eq_bool_ne _ _ Hop), Ha. reflexivity.
Qed.

Lemma node_anchor_raises base overlay opacity p xp yp xpx ypx e h :
  opacity <> 0%Qc ->
  overlay_anchor p (width base) (height base) (width overlay)
    (height overlay) xp yp xpx ypx = Raise e ->
  overlay_images_node base overlay opacity p xp yp xpx ypx h = (Raise e, h).
Proof.
  intros Hop Ha. unfold overlay_images_node, get_h_w_c.
  rewrite (Qc_eq_bool_ne _ _ Hop), Ha. reflexivity.
Qed.

(** One axis of line 195-197: a footprint that starts before the end of the
    base and ends after its start meets the base. *)
Lemma axis_meets x0 b o :
  0 < b -> 0 < o -> x0 < b -> 0 < x0 + o ->
  0 <= Z.max 0 x0 < Z.min (x0 + o) b.
Proof. lia. Qed.

Lemma overlaps_axes x0 y0 bw bh ow oh :
  0 < bw -> 0 < ow -> x0 < bw -> 0 < x0 + ow ->
  0 < bh -> 0 < oh -> y0 < bh -> 0 < y0 + oh ->
  overlaps (intersection x0 y0 bw bh ow oh) = true.
Proof.
  intros. unfold intersection, overlaps.
  pose proof (axis_meets x0 bw ow). pose proof (axis_meets y0 bh oh).
  repeat (apply andb_true_intro; split); lia.
Qed.

Lemma py_round_half_bounds n :
  n <= 2 * py_round (n # 2) + 1 /\ 2 * py_round (n # 2) <= n + 1
  /\ (Z.even n = true -> 2 * py_round (n # 2) = n).
Proof.
  rewrite py_round_half. rewrite !Zeven_mod.
  destruct (Z.eqb_spec (n mod 2) 0), (Z.eqb_spec ((n / 2) mod 2) 0);
    repeat split; try discriminate; intros;
    Z.to_euclidean_division_equations; lia.
Qed.

Lemma pixel_anchor_meets px b o :
  - max_dim b o < px < max_dim b o -> 0 < b -> 0 < o ->
  pixel_anchor px b o < b /\ 0 < pixel_anchor px b o + o.
Proof.
  intros Hpx Hb Ho. rewrite max_dim_quot in Hpx.
  rewrite pixel_anchor_half.
  pose proof (py_round_half_bounds (2 * px + (b - o))) as (H1 & H2 & H3).
  revert Hpx H1 H2 H3.
  generalize (py_round ((2 * px + (b - o)) # 2)). intros r.
  destruct (Z.even (2 * px + (b - o))) eqn:He.
  - intros Hpx _ _ H3. specialize (H3 eq_refl). revert Hpx.
    Z.to_euclidean_division_equations. lia.
  - intros Hpx H1 H2 _. rewrite Zeven_mod in He. revert Hpx He.
    destruct (Z.eqb_spec ((2 * px + (b - o)) mod 2) 0); [discriminate |].
    revert n. Z.to_euclidean_division_equations. lia.
Qed.

Lemma overlay_anchor_pixel_ok bw bh ow oh xp yp xpx ypx x0 y0 :
  overlay_anchor PIXEL_OFFSET bw bh ow oh xp yp xpx ypx = Ok (x0, y0) ->
  - max_dim bw ow < xpx < max_dim bw ow
  /\ - max_dim bh oh < ypx < max_dim bh oh
  /\ x0 = pixel_anchor xpx bw ow /\ y0 = pixel_anchor ypx bh oh.
Proof.
  unfold overlay_anchor.
  destruct ((-1 * max_dim bw ow <? xpx) && (xpx <? max_dim bw ow)) eqn:Hx;
    cbn [negb]; [| discriminate].
  destruct ((-1 * max_dim bh oh <? ypx) && (ypx <? max_dim bh oh)) eqn:Hy;
    cbn [negb]; [| discriminate].
  intros E. injection E as <- <-.
  repeat split; lia.
Qed.

Lemma overlay_anchor_raise_inv p bw bh ow oh xp yp xpx ypx e :
  overlay_anchor p bw bh ow oh xp yp xpx ypx = Raise e ->
  p = PIXEL_OFFSET /\ raises_offset_assertion (@Raise unit e).
Proof.
  destruct p; try (cbn; discriminate).
  intros E. split; [reflexivity |].
  unfold overlay_anchor in E.
  destruct (negb _); [injection E as <-; do 3 eexists; reflexivity |].
  destruct (negb _); [injection E as <-; do 3 eexists; reflexivity |].
  discriminate E.
Qed.

(** C5, as amended: for every input with non-zero opacity whose clipped
    intersection rectangle is degenerate.  Wherever the position mode
    accepts the offsets, so that an anchor is computed, the node returns
    the base array itself, raises nothing and leaves the store untouched.
    In pixel-offset mode on images of positive size, however, a degenerate
    intersection only comes from an offset outside the range of the
    assertions of lines 177-185, and these run before the intersection is
    tested: the node raises the offset assertion, with the store untouched,
    and does not return the base. *)
Theorem empty_intersection_returns_base
    (base overlay : ndarray) (opacity : Qc) (p : OverlayPosition)
    (xp yp xpx ypx : Z) (h : heap) :
  opacity <> 0%Qc ->
  (forall x0 y0,
     overlay_anchor p (width base) (height base) (width overlay)
       (height overlay) xp yp xpx ypx = Ok (x0, y0) ->
     overlaps (intersection x0 y0 (width base) (height base)
                 (width overlay) (height overlay)) = false ->
     overlay_images_node base overlay opacity p xp yp xpx ypx h
     = (Ok base, h))
  /\ (p = PIXEL_OFFSET ->
      0 < width base -> 0 < height base ->
      0 < width overlay -> 0 < height overlay ->
      overlaps (intersection
                  (pixel_anchor xpx (width base) (width overlay))
                  (pixel_anchor ypx (height base) (height overlay))
                  (width base) (height base)
                  (width overlay) (height overlay)) = false ->
      exists a lo hi,
        overlay_images_node base overlay opacity p xp yp xpx ypx h
        = (Raise (OffsetAssertion a lo hi), h)).
Proof.
  intros Hop. split.
  - intros x0 y0 Ha Hno.
    rewrite (node_after_anchor _ _ _ _ _ _ _ _ _ _ Hop Ha).
    apply overlay_blend_no_overlap, Hno.
  - intros -> Hbw Hbh How Hoh Hno.
    destruct (overlay_anchor PIXEL_OFFSET (width base) (height base)
                (width overlay) (height overlay) xp yp xpx ypx)
      as [[x0 y0] | e] eqn:Ha.
    + exfalso.
      apply overlay_anchor_pixel_ok in Ha. destruct Ha as (Vx & Vy & _ & _).
      pose proof (pixel_anchor_meets xpx _ _ Vx Hbw How) as [Mx1 Mx2].
      pose proof (pixel_anchor_meets ypx _ _ Vy Hbh Hoh) as [My1 My2].
      rewrite overlaps_axes in Hno by assumption. discriminate Hno.
    + destruct (overlay_anchor_raise_inv _ _ _ _ _ _ _ _ _ _ Ha)
        as [_ (a & lo & hi & Ee)].
      injection Ee as ->. exists a, lo, hi.
      apply node_anchor_raises; assumption.
Qed.

Lemma fifty_ne_0 : fifty <> 0%Qc.
Proof. intros E. apply (f_equal this) in E. discriminate E. Qed.

Lemma empty_intersection_returns_base_witness :
  exists a lo hi,
    overlay_images_node (image_at 0 100 100 3) (image_at 1 50 50 4) fifty
      PIXEL_OFFSET 0 0 75 0 sample_store
    = (Raise (OffsetAssertion a lo hi), sample_store).
Proof.
  apply (proj2 (empty_intersection_returns_base
                  (image_at 0 100 100 3) (image_at 1 50 50 4) fifty
                  PIXEL_OFFSET 0 0 75 0 sample_store fifty_ne_0));
    try reflexivity; simpl; lia.
Defined.

(** C5 as stated fails in pixel-offset mode: with a base of 100 x 100, an
    overlay of 50 x 50 and an X offset of 75 the footprint starts at column
    100, the intersection is empty, and the node raises the X-offset
    assertion instead of returning the base. *)
Lemma empty_intersection_counterexample :
  overlaps (intersection (pixel_anchor 75 100 50) (pixel_anchor 0 100 50)
              100 100 50 50) = false
  /\ overlay_images_node (image_at 0 100 100 3) (image_at 1 50 50 4) fifty
       PIXEL_OFFSET 0 0 75 0 sample_store
     = (Raise (OffsetAssertion AxisX (-74) 74), sample_store).
Proof.
  split; [reflexivity |].
  apply node_anchor_raises; [exact fifty_ne_0 | reflexivity].
Qed.

(** ** Framing: what a computation leaves of the store it starts from *)

Section Frame.

(** The store at the time of the call. *)
Variable h0 : heap.

Lemma respects_ret {A} (a : A) (Q : A -> Prop) E :
  Q a -> respects h0 (ret a) Q E.
Proof. intros HQ h Hp. split; [exact Hp | exact HQ]. Qed.

Lemma respects_raise {A} e (Q : A -> Prop) (E : exn -> Prop) :
  E e -> respects h0 (raise e) Q E.
Proof. intros HE h Hp. split; [exact Hp | exact HE]. Qed.

Lemma respects_bind {A B} (m : M A) (k : A -> M B) Q1 Q2 E :
  respects h0 m Q1 E ->
  (forall a, Q1 a -> respects h0 (k a) Q2 E) ->
  respects h0 (bind m k) Q2 E.
Proof.
  intros Hm Hk h Hp. unfold bind.
  destruct (Hm h Hp) as [Hp' Hr].
  destruct (m h) as [[a | e] h']; simpl in *.
  - apply Hk; assumption.
  - split; assumption.
Qed.

Lemma respects_weaken {A} (m : M A) (Q Q' : A -> Prop) E :
  respects h0 m Q E -> (forall a, Q a -> Q' a) -> respects h0 m Q' E.
Proof.
  intros Hm HQ h Hp. destruct (Hm h Hp) as [Hp' Hr]. split; [exact Hp' |].
  destruct (fst (m h)); auto.
Qed.

Lemma respects_assert c e E :
  E e -> respects h0 (py_assert c e) (fun _ => True) E.
Proof.
  intros HE. unfold py_assert. destruct c.
  - apply respects_ret; exact I.
  - apply respects_raise; exact HE.
Qed.

Lemma respects_lift {A} (r : result A) (Q : A -> Prop) (E : exn -> Prop) :
  match r with Ok a => Q a | Raise e => E e end -> respects h0 (lift r) Q E.
Proof. intros Hr h Hp. split; [exact Hp | exact Hr]. Qed.

Lemma respects_load a E : respects h0 (load a) (fun _ => True) E.
Proof. intros h Hp. split; [exact Hp | exact I]. Qed.

Lemma respects_alloc g E :
  respects h0 (alloc g) (fun l => (length h0 <= l)%nat) E.
Proof.
  intros h [k ->]. simpl. split.
  - exists (k ++ [g]). rewrite app_assoc. reflexivity.
  - rewrite length_app. lia.
Qed.

Lemma respects_store_window a f E :
  fresh_array h0 a -> respects h0 (store_window a f) (fun _ => True) E.
Proof.
  intros Hf h [k ->]. unfold store_window. cbn [fst snd].
  split; [| exact I].
  rewrite insert_app_r_alt by exact Hf.
  eexists. reflexivity.
Qed.

Lemma respects_np_copy a E :
  respects h0 (np_copy a)
    (fun r => fresh_array h0 r /\ same_extent a r (channels a)) E.
Proof.
  unfold np_copy.
  eapply respects_bind; [apply respects_load | intros g _].
  eapply respects_bind; [apply respects_alloc | intros l Hl].
  apply respects_ret. repeat split. exact Hl.
Qed.

Lemma respects_np_dstack3 a E :
  respects h0 (np_dstack3 a) (fun r => fresh_array h0 r /\ same_extent a r 3) E.
Proof.
  unfold np_dstack3.
  eapply respects_bind; [apply respects_load | intros g _].
  eapply respects_bind; [apply respects_alloc | intros l Hl].
  apply respects_ret. repeat split. exact Hl.
Qed.

Lemma respects_imul_channel a k s (E : exn -> Prop) :
  fresh_array h0 a -> E IndexError ->
  respects h0 (imul_channel a k s) (fun _ => True) E.
Proof.
  intros Hf HE. unfold imul_channel.
  destruct (Z.of_nat k <? channels a).
  - eapply respects_bind; [apply respects_load | intros g _].
    apply respects_store_window, Hf.
  - apply respects_raise, HE.
Qed.

Lemma respects_np_assign dst src (E : exn -> Prop) :
  fresh_array h0 dst -> E BroadcastError ->
  respects h0 (np_assign dst src) (fun _ => True) E.
Proof.
  intros Hf HE. unfold np_assign.
  destruct (_ && _).
  - eapply respects_bind; [apply respects_load | intros g _].
    apply respects_store_window, Hf.
  - apply respects_raise, HE.
Qed.

Lemma respects_convert_to_BGRA img in_c :
  respects h0 (convert_to_BGRA img in_c)
    (fun r => fresh_array h0 r /\ same_extent img r 4) not_offset_assertion.
Proof.
  unfold convert_to_BGRA.
  eapply respects_bind; [apply respects_assert; exact I | intros _ _].
  eapply respects_bind; [apply respects_load | intros g _].
  eapply respects_bind; [apply respects_alloc | intros l Hl].
  apply respects_ret. repeat split. exact Hl.
Qed.

Lemma respects_as_2d_grayscale img :
  respects h0 (as_2d_grayscale img) (fun r => r = img) not_offset_assertion.
Proof.
  unfold as_2d_grayscale.
  eapply respects_bind; [apply respects_assert; exact I | intros _ _].
  apply respects_ret. reflexivity.
Qed.

Lemma respects_blend_images overlay base :
  respects h0 (blend_images overlay base)
    (fun r => fresh_array h0 r
              /\ same_extent base r (Z.max (channels overlay) (channels base))
              /\ sane_channels (channels base) = true)
    not_offset_assertion.
Proof.
  unfold blend_images.
  eapply respects_bind; [apply respects_assert; exact I | intros _ _].
  eapply respects_bind; [apply respects_assert; exact I | intros _ _].
  destruct (sane_channels (channels base)) eqn:Hs.
  - eapply respects_bind; [apply respects_assert; exact I | intros _ _].
    eapply respects_bind; [apply respects_load | intros o _].
    eapply respects_bind; [apply respects_load | intros b _].
    eapply respects_bind; [apply respects_alloc | intros l Hl].
    apply respects_ret. repeat split. exact Hl.
  - eapply respects_bind with (Q1 := fun _ => False).
    + intros h Hp. split; [exact Hp | exact I].
    + intros _ [].
Qed.

End Frame.

(** ** The node under the framing logic *)

Lemma sane_channels_cases c :
  sane_channels c = true -> c = 1 \/ c = 3 \/ c = 4.
Proof. unfold sane_channels. lia. Qed.

Lemma respects_apply_opacity h0 overlay opacity c :
  channels overlay = c ->
  respects h0 (apply_opacity overlay opacity c)
    (fun ov => channels ov = 4) not_offset_assertion.
Proof.
  intros Hc. unfold apply_opacity.
  destruct (Qc_eq_bool opacity (Q2Qc 100) && (c =? 4)) eqn:Hcond;
    cbn [negb].
  - apply respects_ret. apply andb_true_iff in Hcond. lia.
  - eapply respects_bind; [apply respects_convert_to_BGRA |].
    intros ov (Hfo & _ & _ & Hoc).
    eapply respects_bind;
      [apply respects_imul_channel; [exact Hfo | exact I] | intros _ _].
    apply respects_ret. exact Hoc.
Qed.

Lemma respects_match_channels h0 base output c :
  fresh_array h0 output -> same_extent base output c ->
  c = 1 \/ c = 3 \/ c = 4 ->
  respects h0 (match_channels output c 4)
    (fun out => fresh_array h0 out /\ same_extent base out 4)
    not_offset_assertion.
Proof.
  intros Hf (Hh & Hw & Hc) Hsane. unfold match_channels.
  destruct (c <? 4) eqn:Hlt.
  - change (4 =? 4) with true. cbn iota.
    eapply respects_weaken; [apply respects_convert_to_BGRA |].
    intros r (Hfr & Hrh & Hrw & Hrc).
    split; [exact Hfr |]. repeat split; congruence.
  - apply respects_ret. split; [exact Hf |].
    repeat split; try assumption. lia.
Qed.

Lemma respects_overlay_blend h0 base overlay opacity x0 y0 :
  let meets := overlaps (intersection x0 y0 (width base) (height base)
                           (width overlay) (height overlay)) in
  respects h0 (overlay_blend base overlay opacity x0 y0)
    (fun out =>
       if meets then fresh_array h0 out /\ same_extent base out 4
       else out = base)
    not_offset_assertion.
Proof.
  intros meets. subst meets. unfold overlay_blend, get_h_w_c.
  destruct (intersection x0 y0 (width base) (height base)
              (width overlay) (height overlay))
    as [[[ix0 ix1] iy0] iy1].
  destruct (overlaps (ix0, ix1, iy0, iy1)); cbn [negb].
  2: { apply respects_ret. reflexivity. }
  set (crop := if _ : bool then np_slice overlay _ _ _ _ else overlay).
  assert (Hcrop : channels crop = channels overlay)
    by (subst crop; destruct (_ || _); reflexivity).
  eapply respects_bind; [apply respects_np_copy |].
  intros base' (Hfb & Hbh & Hbw & Hbc).
  eapply respects_bind; [apply respects_apply_opacity, Hcrop |].
  intros ov Hov4.
  eapply respects_bind; [apply respects_blend_images |].
  intros blended (Hfbl & (_ & _ & Hblc) & Hsane).
  cbn [np_slice channels] in Hblc, Hsane.
  rewrite Hbc in Hsane. rewrite Hov4, Hbc in Hblc.
  apply sane_channels_cases in Hsane.
  assert (Hbl4 : channels blended = 4) by lia.
  rewrite Hbl4.
  eapply respects_bind;
    [apply (respects_match_channels h0 base base');
       [exact Hfb | repeat split; assumption | exact Hsane] |].
  intros out (Hfo & Hext).
  eapply respects_bind;
    [apply respects_np_assign; [exact Hfo | exact I] | intros _ _].
  apply respects_ret. split; assumption.
Qed.

Lemma respects_overlay_images_node h0 base overlay opacity p xp yp xpx ypx :
  respects h0 (overlay_images_node base overlay opacity p xp yp xpx ypx)
    (fun out =>
       if blending_runs base overlay opacity p xp yp xpx ypx
       then fresh_array h0 out /\ same_extent base out 4
       else out = base)
    (fun _ => True).
Proof.
  unfold overlay_images_node, blending_runs, get_h_w_c.
  destruct (Qc_eq_bool opacity 0); cbn [negb andb].
  { apply respects_ret. reflexivity. }
  destruct (overlay_anchor p (width base) (height base) (width overlay)
              (height overlay) xp yp xpx ypx) as [[x0 y0] | e].
  - eapply respects_bind with (Q1 := fun xy => xy = (x0, y0)).
    + apply respects_lift. reflexivity.
    + intros xy ->. cbn [fst snd].
      intros h Hp.
      destruct (respects_overlay_blend h0 base overlay opacity x0 y0 h Hp)
        as [Hp' Hr].
      split; [exact Hp' |].
      destruct (fst (overlay_blend base overlay opacity x0 y0 h));
        [exact Hr | exact I].
  - eapply respects_bind with (Q1 := fun _ => False).
    + apply respects_lift. exact I.
    + intros _ [].
Qed.

(** ** What the node leaves of its inputs, and the shape of its result *)

Lemma fetch_prefix (h h' : heap) (l : nat) :
  h `prefix_of` h' -> (l < length h)%nat -> fetch h' l = fetch h l.
Proof.
  intros [k ->] Hl. unfold fetch. rewrite lookup_app_l by exact Hl.
  reflexivity.
Qed.

Lemma view_prefix (h h' : heap) (a : ndarray) :
  h `prefix_of` h' -> (buf a < length h)%nat -> view h' a = view h a.
Proof.
  intros Hp Hl. unfold view. rewrite (fetch_prefix h h' _ Hp Hl).
  reflexivity.
Qed.

(** C3: the node never writes to a buffer that existed when it was called.
    For every invocation the store it leaves is the store it found followed
    by the buffers it allocated (the copy of the base among them), so every
    array of the caller, the base and the overlay in particular, shows the
    same pixels after the call as before, whether the node returns or
    raises. *)
Theorem inputs_not_mutated
    (base overlay : ndarray) (opacity : Qc) (p : OverlayPosition)
    (xp yp xpx ypx : Z) (h : heap) :
  let h' := snd (overlay_images_node base overlay opacity p xp yp xpx ypx h) in
  h `prefix_of` h'
  /\ forall a : ndarray, (buf a < length h)%nat -> view h' a = view h a.
Proof.
  intros h'.
  assert (Hp : h `prefix_of` h').
  { apply (respects_overlay_images_node h base overlay opacity p
             xp yp xpx ypx h).
    reflexivity. }
  split; [exact Hp |].
  intros a Ha. apply view_prefix; assumption.
Qed.

Lemma inputs_not_mutated_witness :
  view (snd (overlay_images_node (image_at 0 2 3 3) (image_at 1 2 2 4) fifty
               CENTERED 0 0 0 0 sample_store))
    (image_at 1 2 2 4)
  = view sample_store (image_at 1 2 2 4).
Proof.
  apply (inputs_not_mutated (image_at 0 2 3 3) (image_at 1 2 2 4) fifty
           CENTERED 0 0 0 0 sample_store).
  simpl. lia.
Defined.

(** The shape of what the node returns: the width and the height of the
    base, and the channel count of the base on the two paths that return
    the base itself, 4 where blending runs. *)
Lemma result_shape
    (base overlay : ndarray) (opacity : Qc) (p : OverlayPosition)
    (xp yp xpx ypx : Z) (h h' : heap) (out : ndarray) :
  overlay_images_node base overlay opacity p xp yp xpx ypx h = (Ok out, h') ->
  width out = width base
  /\ height out = height base
  /\ channels out =
     (if blending_runs base overlay opacity p xp yp xpx ypx
      then 4 else channels base).
Proof.
  intros Hrun.
  destruct (respects_overlay_images_node h base overlay opacity p
              xp yp xpx ypx h) as [_ Hr]; [reflexivity |].
  rewrite Hrun in Hr. cbn [fst] in Hr.
  destruct (blending_runs base overlay opacity p xp yp xpx ypx).
  - destruct Hr as (_ & Hh & Hw & Hc). auto.
  - subst out. auto.
Qed.

(** C1: the channel count of the result is not the maximum of the two
    channel counts, which is what the node declares for its output
    (line 133).  With opacity 0, a three-channel base and a four-channel
    overlay the node returns the three-channel base, not max(3, 4) = 4
    channels; with opacity 50 and two three-channel images the blended
    result has 4 channels, not max(3, 3) = 3.  Width and height are those
    of the base in both runs. *)
Lemma channel_count_diverges :
  (fst (overlay_images_node (image_at 0 2 3 3) (image_at 1 2 2 4) 0%Qc
          CENTERED 0 0 0 0 sample_store)
   = Ok (image_at 0 2 3 3)
   /\ channels (image_at 0 2 3 3)
      <> Z.max (channels (image_at 0 2 3 3)) (channels (image_at 1 2 2 4)))
  /\ (fst (overlay_images_node (image_at 0 2 3 3) (image_at 2 1 1 3) fifty
             CENTERED 0 0 0 0 sample_store)
      = Ok (image_at 7 2 3 4)
      /\ channels (image_at 7 2 3 4)
         <> Z.max (channels (image_at 0 2 3 3))
                  (channels (image_at 2 1 1 3))).
Proof.
  split; (split; [reflexivity | simpl; lia]).
Qed.

(** ** The blending path, step by step *)

Lemma slice_index_id len i : 0 <= i <= len -> slice_index len i = i.
Proof.
  intros H. unfold slice_index.
  replace (i <? 0) with false by (symmetry; apply Z.ltb_ge; lia).
  lia.
Qed.

Lemma np_slice_in_range a y0 y1 x0 x1 :
  0 <= y0 <= y1 -> y1 <= height a ->
  0 <= x0 <= x1 -> x1 <= width a ->
  np_slice a y0 y1 x0 x1 =
  {| buf := buf a; off_y := off_y a + y0; off_x := off_x a + x0;
     height := y1 - y0; width := x1 - x0; channels := channels a |}.
Proof.
  intros Hy Hy1 Hx Hx1. unfold np_slice.
  rewrite !slice_index_id by lia.
  rewrite !Z.max_r by lia. reflexivity.
Qed.

Lemma fetch_app_new (h : heap) (g : grid) : fetch (h ++ [g]) (length h) = g.
Proof.
  unfold fetch. rewrite lookup_app_r by lia.
  rewrite Nat.sub_diag. reflexivity.
Qed.

Lemma fetch_insert_eq (h : heap) (l : nat) (g : grid) :
  (l < length h)%nat -> fetch (<[l := g]> h) l = g.
Proof.
  intros Hl. unfold fetch. rewrite list_lookup_insert_eq by exact Hl.
  reflexivity.
Qed.

Lemma insert_last (h : heap) (g g' : grid) :
  <[length h := g']> (h ++ [g]) = h ++ [g'].
Proof.
  rewrite insert_app_r_alt by lia. rewrite Nat.sub_diag. reflexivity.
Qed.

Lemma prefix_of_app (h k : heap) : h `prefix_of` h ++ k.
Proof. exists k. reflexivity. Qed.

Lemma bind_ok {A B} (m : M A) (k : A -> M B) h a h' :
  m h = (Ok a, h') -> bind m k h = k a h'.
Proof. intros E. unfold bind. rewrite E. reflexivity. Qed.

Lemma np_copy_run a h :
  np_copy a h =
  (Ok {| buf := length h; off_y := 0; off_x := 0; height := height a;
         width := width a; channels := channels a |},
   h ++ [view h a]).
Proof. reflexivity. Qed.

Lemma convert_to_BGRA_run img c h :
  sane_channels c = true ->
  convert_to_BGRA img c h =
  (Ok {| buf := length h; off_y := 0; off_x := 0; height := height img;
         width := width img; channels := 4 |},
   h ++ [fun y x => bgra_pixel c (view h img y x)]).
Proof.
  intros Hs. unfold convert_to_BGRA. rewrite Hs. reflexivity.
Qed.

Lemma blend_images_run overlay base h :
  height overlay = height base -> width overlay = width base ->
  sane_channels (channels overlay) = true ->
  sane_channels (channels base) = true ->
  blend_images overlay base h =
  (Ok {| buf := length h; off_y := 0; off_x := 0; height := height base;
         width := width base;
         channels := Z.max (channels overlay) (channels base) |},
   h ++ [fun y x =>
           blend_pixel (Z.max (channels overlay) (channels base))
             (view h overlay y x) (view h base y x)]).
Proof.
  intros Hh Hw Hso Hsb. unfold blend_images.
  rewrite Hh, Hw, !Z.eqb_refl, Hso, Hsb. reflexivity.
Qed.

Lemma view_new (h : heap) (g : grid) ht wd c y x :
  view (h ++ [g]) {| buf := length h; off_y := 0; off_x := 0;
                     height := ht; width := wd; channels := c |} y x
  = g y x.
Proof. unfold view; cbn [buf off_y off_x]. rewrite fetch_app_new. reflexivity. Qed.

(** Lines 215-219 on a valid crop of the overlay. *)
Lemma apply_opacity_run h crop opacity c :
  sane_channels c = true -> channels crop = c ->
  (buf crop < length h)%nat ->
  exists ov h',
    apply_opacity crop opacity c h = (Ok ov, h')
    /\ h `prefix_of` h'
    /\ (buf ov < length h')%nat
    /\ same_extent crop ov 4
    /\ forall y x, 0 <= y < height crop -> 0 <= x < width crop ->
         view h' ov y x = opacity_applied opacity c (view h crop y x).
Proof.
  intros Hs Hc Hl. unfold apply_opacity, opacity_applied.
  destruct (Qc_eq_bool opacity (Q2Qc 100) && (c =? 4)) eqn:Hcond;
    cbn [negb].
  - exists crop, h. repeat split; try reflexivity; try assumption.
    apply andb_true_iff in Hcond. lia.
  - rewrite (bind_ok _ _ _ _ _ (convert_to_BGRA_run crop c h Hs)).
    set (ov := {| buf := length h; off_y := 0; off_x := 0;
                  height := height crop; width := width crop;
                  channels := 4 |}).
    set (g := fun y x => bgra_pixel c (view h crop y x)).
    exists ov.
    eexists. split.
    { unfold imul_channel. cbn [channels ov].
      change (Z.of_nat 3 <? 4) with true. cbn iota.
      unfold load, store_window, bind, ret.
      cbn [buf off_y off_x height width ov]. rewrite insert_last.
      reflexivity. }
    split; [apply prefix_of_app |].
    split; [rewrite length_app; simpl; lia |].
    split; [repeat split |].
    intros y x Hy Hx. unfold view at 1. cbn [buf off_y off_x ov].
    rewrite fetch_app_new. cbn beta.
    rewrite !Z.add_0_l, !Z.sub_0_r.
    replace ((0 <=? y) && (y <? height crop) && (0 <=? x)
             && (x <? width crop)) with true by (symmetry; lia).
    unfold view at 1. cbn [buf off_y off_x].
    rewrite fetch_app_new. rewrite !Z.add_0_l. reflexivity.
Qed.

(** Lines 228-236 when the blended region has four channels. *)
Lemma match_channels_run h output c :
  c = 1 \/ c = 3 \/ c = 4 -> channels output = c ->
  (buf output < length h)%nat ->
  exists out h',
    match_channels output c 4 h = (Ok out, h')
    /\ h `prefix_of` h'
    /\ (buf out < length h')%nat
    /\ same_extent output out 4
    /\ forall y x, view h' out y x = bgra_pixel c (view h output y x).
Proof.
  intros Hc Hch Hl. unfold match_channels.
  destruct (c <? 4) eqn:Hlt.
  - change (4 =? 4) with true. cbn iota.
    assert (Hs : sane_channels c = true) by (unfold sane_channels; lia).
    rewrite (convert_to_BGRA_run output c h Hs).
    do 2 eexists. split; [reflexivity |].
    split; [apply prefix_of_app |].
    split; [rewrite length_app; simpl; lia |].
    split; [repeat split |].
    intros y x. apply view_new.
  - assert (H4 : c = 4) by lia.
    exists output, h. split; [reflexivity |].
    split; [reflexivity |].
    split; [exact Hl |].
    split; [repeat split; congruence |].
    intros y x. unfold bgra_pixel. rewrite H4. reflexivity.
Qed.

(** Line 239 when the blended region fits the target rectangle. *)
Lemma np_assign_run h out src iy0 iy1 ix0 ix1 :
  (buf out < length h)%nat ->
  0 <= iy0 <= iy1 -> iy1 <= height out ->
  0 <= ix0 <= ix1 -> ix1 <= width out ->
  height src = iy1 - iy0 -> width src = ix1 - ix0 ->
  channels src = channels out ->
  exists h',
    np_assign (np_slice out iy0 iy1 ix0 ix1) src h = (Ok tt, h')
    /\ length h' = length h
    /\ forall y x,
         view h' out y x =
         if inside (ix0, ix1, iy0, iy1) y x
         then view h src (y - iy0) (x - ix0)
         else view h out y x.
Proof.
  intros Hl Hy Hy1 Hx Hx1 Hsh Hsw Hsc.
  rewrite np_slice_in_range by assumption.
  unfold np_assign. cbn [height width channels].
  unfold broadcastable. rewrite Hsh, Hsw, Hsc, !Z.eqb_refl. cbn [orb andb].
  unfold bind, load, store_window. cbn [buf off_y off_x height width].
  eexists. split; [reflexivity |].
  split; [apply length_insert |].
  intros y x. unfold view at 1. rewrite fetch_insert_eq by exact Hl.
  cbn beta.
  replace (off_y out + y - (off_y out + iy0)) with (y - iy0) by lia.
  replace (off_x out + x - (off_x out + ix0)) with (x - ix0) by lia.
  unfold inside.
  replace ((0 <=? y - iy0) && (y - iy0 <? iy1 - iy0)
           && (0 <=? x - ix0) && (x - ix0 <? ix1 - ix0))
    with ((iy0 <=? y) && (y <? iy1) && (ix0 <=? x) && (x <? ix1))
    by lia.
  destruct ((iy0 <=? y) && (y <? iy1) && (ix0 <=? x) && (x <? ix1)) eqn:Hin;
    [| reflexivity].
  unfold bcast_pixel. rewrite Z.eqb_refl.
  unfold bcast_index.
  replace (if iy1 - iy0 =? 1 then 0 else y - iy0) with (y - iy0)
    by (destruct (Z.eqb_spec (iy1 - iy0) 1); lia).
  replace (if ix1 - ix0 =? 1 then 0 else x - ix0) with (x - ix0)
    by (destruct (Z.eqb_spec (ix1 - ix0) 1); lia).
  reflexivity.
Qed.

(** Lines 192-241 on the blending path: the node returns a four-channel
    image of the size of the base; inside the intersection its pixels are
    the blend of the overlay (with the opacity applied) over the base, and
    outside they are the pixels of the base taken to BGRA. *)
Lemma overlay_blend_run h base overlay opacity x0 y0 :
  (buf base < length h)%nat -> (buf overlay < length h)%nat ->
  sane_channels (channels base) = true ->
  sane_channels (channels overlay) = true ->
  overlaps (intersection x0 y0 (width base) (height base)
              (width overlay) (height overlay)) = true ->
  exists out h',
    overlay_blend base overlay opacity x0 y0 h = (Ok out, h')
    /\ same_extent base out 4
    /\ forall y x,
         view h' out y x =
         if inside (intersection x0 y0 (width base) (height base)
                      (width overlay) (height overlay)) y x
         then blend_pixel 4
                (opacity_applied opacity (channels overlay)
                   (view h overlay (y - y0) (x - x0)))
                (view h base y x)
         else bgra_pixel (channels base) (view h base y x).
Proof.
  intros Hlb Hlo Hsb Hso Hov.
  unfold overlay_blend, get_h_w_c, intersection in *.
  remember (Z.max 0 x0) as ix0 eqn:Eix0.
  remember (Z.min (x0 + width overlay) (width base)) as ix1 eqn:Eix1.
  remember (Z.max 0 y0) as iy0 eqn:Eiy0.
  remember (Z.min (y0 + height overlay) (height base)) as iy1 eqn:Eiy1.
  cbv beta iota zeta in *.
  rewrite Hov. cbn [negb].
  assert (Hb : 0 <= ix0 < ix1 /\ 0 <= iy0 < iy1)
    by (unfold overlaps in Hov; lia).
  remember (Z.max 0 (-1 * x0)) as ox0 eqn:Eox0.
  remember (Z.max 0 (-1 * y0)) as oy0 eqn:Eoy0.
  replace ((oy0 + iy1 - iy0 - oy0 >? 0) || (ox0 + ix1 - ix0 - ox0 >? 0))
    with true by lia.
  rewrite (np_slice_in_range overlay) by lia.
  set (crop := {| buf := buf overlay; off_y := off_y overlay + oy0;
                  off_x := off_x overlay + ox0;
                  height := oy0 + iy1 - iy0 - oy0;
                  width := ox0 + ix1 - ix0 - ox0;
                  channels := channels overlay |}).
  rewrite (bind_ok _ _ _ _ _ (np_copy_run base h)).
  set (h1 := h ++ [view h base]).
  set (base' := {| buf := length h; off_y := 0; off_x := 0;
                   height := height base; width := width base;
                   channels := channels base |}).
  assert (Hl1 : length h1 = S (length h))
    by (unfold h1; rewrite length_app; simpl; lia).
  destruct (apply_opacity_run h1 crop opacity (channels overlay))
    as (ov & h2 & E2 & P2 & L2 & (Hovh & Hovw & Hovc) & V2);
    [exact Hso | reflexivity | simpl; lia |].
  rewrite (bind_ok _ _ _ _ _ E2).
  rewrite (np_slice_in_range base') by (simpl; lia).
  set (region := {| buf := buf base'; off_y := off_y base' + iy0;
                    off_x := off_x base' + ix0;
                    height := iy1 - iy0; width := ix1 - ix0;
                    channels := channels base' |}).
  assert (Hl2 : (length h1 <= length h2)%nat) by (apply prefix_length, P2).
  rewrite (bind_ok _ _ _ _ _ (blend_images_run ov region h2
             ltac:(rewrite Hovh; simpl; lia)
             ltac:(rewrite Hovw; simpl; lia)
             ltac:(rewrite Hovc; reflexivity)
             Hsb)).
  cbn [channels region base']. rewrite Hovc.
  assert (Hmax : Z.max 4 (channels base) = 4)
    by (apply sane_channels_cases in Hsb; lia).
  rewrite Hmax.
  set (bl := fun y x => blend_pixel 4 (view h2 ov y x) (view h2 region y x)).
  set (blended := {| buf := length h2; off_y := 0; off_x := 0;
                     height := height region; width := width region;
                     channels := 4 |}).
  set (h3 := h2 ++ [bl]).
  assert (Hl3 : length h3 = S (length h2))
    by (unfold h3; rewrite length_app; simpl; lia).
  destruct (match_channels_run h3 base' (channels base))
    as (out & h4 & E4 & P4 & L4 & (Hoh & How & Hoc) & V4);
    [apply sane_channels_cases, Hsb | reflexivity | simpl; lia |].
  rewrite (bind_ok _ _ _ _ _ E4).
  destruct (np_assign_run h4 out blended iy0 iy1 ix0 ix1)
    as (h5 & E5 & L5 & V5);
    [exact L4 | lia | rewrite Hoh; simpl; lia | lia
    | rewrite How; simpl; lia | reflexivity | reflexivity
    | rewrite Hoc; reflexivity |].
  rewrite (bind_ok _ _ _ _ _ E5).
  exists out, h5. split; [reflexivity |].
  split; [repeat split; assumption |].
  intros y x. rewrite V5. unfold inside.
  destruct ((iy0 <=? y) && (y <? iy1) && (ix0 <=? x) && (x <? ix1)) eqn:Hin.
  - (* inside: the blended pixel *)
    rewrite (view_prefix h3 h4 blended P4) by (simpl; lia).
    unfold h3, blended. rewrite view_new. unfold bl.
    rewrite V2 by (simpl; lia).
    f_equal.
    + f_equal. rewrite (view_prefix h h1 crop) by
        (try apply prefix_of_app; simpl; lia).
      unfold view. cbn [buf off_y off_x crop]. f_equal; lia.
    + rewrite (view_prefix h1 h2 region P2) by (simpl; lia).
      unfold view. cbn [buf off_y off_x region base'].
      unfold h1. rewrite fetch_app_new.
      unfold view. f_equal; lia.
  - (* outside: the base taken to BGRA *)
    rewrite V4. f_equal.
    assert (P13 : h1 `prefix_of` h3)
      by (etransitivity; [exact P2 | apply prefix_of_app]).
    rewrite (view_prefix h1 h3 base' P13) by (simpl; lia).
    unfold h1, base'. rewrite view_new. reflexivity.
Qed.

(** A run of the blending path at opacity 50: a 1 x 1 BGR overlay centred
    on a 2 x 3 BGR base gives a BGRA image whose pixel under the overlay is
    the even mix of the two colours and whose other pixels are the base's
    with alpha 1.0. *)
Example half_opacity_run :
  match overlay_images_node (image_at 0 2 3 3) (image_at 2 1 1 3) fifty
          CENTERED 0 0 0 0 sample_store with
  | (Ok out, h') =>
      get_h_w_c out = (2, 3, 4)
      /\ map this (view h' out 0 1) = [3 # 4; 1 # 2; 1 # 2; 1]%Q
      /\ map this (view h' out 0 0) = [1 # 2; 0; 1; 1]%Q
      /\ map this (view h' out 1 1) = [1 # 2; 0; 1; 1]%Q
  | (Raise _, _) => False
  end.
Proof. vm_compute. repeat split. Qed.

(** ** Validation of pixel offsets *)

Lemma spec_max_dim_even b o :
  Z.even (b + o) = true -> spec_max_dim b o = max_dim b o.
Proof.
  intros He. unfold spec_max_dim. rewrite max_dim_quot.
  rewrite (py_round_Qeq _ ((b + o) # 2)).
  - rewrite py_round_half, He.
    rewrite Zeven_mod in He. revert He.
    Z.to_euclidean_division_equations. lia.
  - unfold Qeq, Qdiv, Qmult, Qinv, inject_Z; simpl. lia.
Qed.

Lemma overlay_anchor_pixel_invalid bw bh ow oh xp yp xpx ypx :
  ~ (- max_dim bw ow < xpx < max_dim bw ow
     /\ - max_dim bh oh < ypx < max_dim bh oh) ->
  raises_offset_assertion
    (overlay_anchor PIXEL_OFFSET bw bh ow oh xp yp xpx ypx).
Proof.
  intros Hout. unfold overlay_anchor.
  destruct ((-1 * max_dim bw ow <? xpx) && (xpx <? max_dim bw ow)) eqn:Hx;
    cbn [negb].
  - destruct ((-1 * max_dim bh oh <? ypx) && (ypx <? max_dim bh oh)) eqn:Hy;
      cbn [negb].
    + exfalso. apply Hout. lia.
    + do 3 eexists. reflexivity.
  - do 3 eexists. reflexivity.
Qed.

Lemma overlay_blend_not_offset base overlay opacity x0 y0 h :
  ~ raises_offset_assertion
      (fst (overlay_blend base overlay opacity x0 y0 h)).
Proof.
  intros (a & lo & hi & E).
  destruct (respects_overlay_blend h base overlay opacity x0 y0 h)
    as [_ Hr]; [reflexivity |].
  rewrite E in Hr. exact Hr.
Qed.

(** Once the offsets are accepted, the node returns an image whenever both
    images are in the store and have 1, 3 or 4 channels. *)
Lemma node_returns base overlay opacity p xp yp xpx ypx x0 y0 h :
  (buf base < length h)%nat -> (buf overlay < length h)%nat ->
  sane_channels (channels base) = true ->
  sane_channels (channels overlay) = true ->
  overlay_anchor p (width base) (height base) (width overlay)
    (height overlay) xp yp xpx ypx = Ok (x0, y0) ->
  exists out h',
    overlay_images_node base overlay opacity p xp yp xpx ypx h
    = (Ok out, h').
Proof.
  intros Hlb Hlo Hsb Hso Ha.
  destruct (Qcanon.Qc_eq_dec opacity 0) as [-> | Hop].
  { unfold overlay_images_node. rewrite Qc_eq_bool_refl.
    exists base, h. reflexivity. }
  rewrite (node_after_anchor _ _ _ _ _ _ _ _ _ _ Hop Ha).
  destruct (overlaps (intersection x0 y0 (width base) (height base)
                        (width overlay) (height overlay))) eqn:Hov.
  - destruct (overlay_blend_run h base overlay opacity x0 y0
                Hlb Hlo Hsb Hso Hov) as (out & h' & E & _).
    eauto.
  - rewrite (overlay_blend_no_overlap _ _ _ _ _ _ Hov). eauto.
Qed.

(** The assertions as the node computes them, for sums of either parity: a
    non-zero opacity and pixel-offset mode raise an offset assertion exactly
    when an offset is outside [(1 - m) .. (m - 1)] for the truncated
    half-sum [m = int((base_dim + overlay_dim) / 2)]. *)
Lemma pixel_offset_validation_truncated
    (base overlay : ndarray) (opacity : Qc) (xp yp xpx ypx : Z) (h : heap) :
  opacity <> 0%Qc ->
  let mx := max_dim (width base) (width overlay) in
  let my := max_dim (height base) (height overlay) in
  raises_offset_assertion
    (fst (overlay_images_node base overlay opacity PIXEL_OFFSET
            xp yp xpx ypx h))
  <-> ~ (1 - mx <= xpx <= mx - 1 /\ 1 - my <= ypx <= my - 1).
Proof.
  intros Hop mx my. split.
  - intros Hr [Hx Hy].
    rewrite (node_after_anchor base overlay opacity PIXEL_OFFSET
               xp yp xpx ypx
               (pixel_anchor xpx (width base) (width overlay))
               (pixel_anchor ypx (height base) (height overlay)) Hop) in Hr
      by (apply overlay_anchor_pixel_valid; fold mx; fold my; lia).
    exact (overlay_blend_not_offset _ _ _ _ _ _ Hr).
  - intros Hout.
    destruct (overlay_anchor_pixel_invalid (width base) (height base)
                (width overlay) (height overlay) xp yp xpx ypx)
      as (a & lo & hi & E); [fold mx; fold my; lia |].
    rewrite (node_anchor_raises _ _ _ _ _ _ _ _ _ h Hop E).
    exists a, lo, hi. reflexivity.
Qed.

(** C2, as amended: in pixel-offset mode with a non-zero opacity, and with
    [base_dim + overlay_dim] even on both axes (where the truncated
    half-sum the node computes is the rounded half-sum of the
    specification), the node raises an offset assertion if and only if on
    some axis the offset lies outside [(1 - max_dim) .. (max_dim - 1)] with
    [max_dim = round((base_dim + overlay_dim) / 2)]; the assertion is raised
    before any processing, the store being untouched.  In particular for
    Wb = 100 and Wo = 50 the offset 75 raises, and the offset 74 returns an
    image when the Y offset is in range and both images have 1, 3 or 4
    channels. *)
Theorem pixel_offset_validation
    (base overlay : ndarray) (opacity : Qc) (xp yp xpx ypx : Z) (h : heap) :
  opacity <> 0%Qc ->
  Z.even (width base + width overlay) = true ->
  Z.even (height base + height overlay) = true ->
  let run :=
    overlay_images_node base overlay opacity PIXEL_OFFSET xp yp xpx ypx h in
  let in_range :=
    offset_in_range xpx (width base) (width overlay)
    /\ offset_in_range ypx (height base) (height overlay) in
  (raises_offset_assertion (fst run) <-> ~ in_range)
  /\ (raises_offset_assertion (fst run) -> snd run = h)
  /\ (width base = 100 -> width overlay = 50 -> xpx = 75 ->
      run = (Raise (OffsetAssertion AxisX (-74) 74), h))
  /\ (width base = 100 -> width overlay = 50 -> xpx = 74 ->
      offset_in_range ypx (height base) (height overlay) ->
      (buf base < length h)%nat -> (buf overlay < length h)%nat ->
      sane_channels (channels base) = true ->
      sane_channels (channels overlay) = true ->
      exists out h', run = (Ok out, h')).
Proof.
  intros Hop Hex Hey run in_range. subst run in_range.
  unfold offset_in_range.
  rewrite (spec_max_dim_even _ _ Hex), (spec_max_dim_even _ _ Hey).
  set (mx := max_dim (width base) (width overlay)).
  set (my := max_dim (height base) (height overlay)).
  assert (Hvalid : - mx < xpx < mx -> - my < ypx < my ->
                   overlay_images_node base overlay opacity PIXEL_OFFSET
                     xp yp xpx ypx
                   = overlay_blend base overlay opacity
                       (pixel_anchor xpx (width base) (width overlay))
                       (pixel_anchor ypx (height base) (height overlay))).
  { intros Hx Hy. apply (node_after_anchor _ _ _ _ _ _ _ _ _ _ Hop).
    apply overlay_anchor_pixel_valid; assumption. }
  assert (Hinvalid : ~ (- mx < xpx < mx /\ - my < ypx < my) ->
                     exists a lo hi,
                       overlay_images_node base overlay opacity PIXEL_OFFSET
                         xp yp xpx ypx h
                       = (Raise (OffsetAssertion a lo hi), h)).
  { intros Hout.
    destruct (overlay_anchor_pixel_invalid (width base) (height base)
                (width overlay) (height overlay) xp yp xpx ypx Hout)
      as (a & lo & hi & E).
    exists a, lo, hi. apply node_anchor_raises; assumption. }
  assert (Hraise : raises_offset_assertion
                     (fst (overlay_images_node base overlay opacity
                             PIXEL_OFFSET xp yp xpx ypx h)) ->
                   ~ (- mx < xpx < mx /\ - my < ypx < my)).
  { intros Hr [Hx Hy]. rewrite (Hvalid Hx Hy) in Hr.
    exact (overlay_blend_not_offset _ _ _ _ _ _ Hr). }
  split; [| split; [| split]].
  - split.
    + intros Hr Hin. apply (Hraise Hr). lia.
    + intros Hout. destruct Hinvalid as (a & lo & hi & E); [lia |].
      rewrite E. exists a, lo, hi. reflexivity.
  - intros Hr. destruct (Hinvalid (Hraise Hr)) as (a & lo & hi & E).
    rewrite E. reflexivity.
  - intros Hbw How ->. apply node_anchor_raises; [exact Hop |].
    rewrite Hbw, How. reflexivity.
  - intros Hbw How -> Hy Hlb Hlo Hsb Hso.
    apply (node_returns base overlay opacity PIXEL_OFFSET xp yp 74 ypx
             (pixel_anchor 74 (width base) (width overlay))
             (pixel_anchor ypx (height base) (height overlay)));
      try assumption.
    apply overlay_anchor_pixel_valid; [| lia].
    rewrite Hbw, How. vm_compute. split; reflexivity.
Qed.

Lemma pixel_offset_validation_witness :
  overlay_images_node (image_at 0 100 100 3) (image_at 1 50 50 4) fifty
    PIXEL_OFFSET 0 0 75 0 sample_store
  = (Raise (OffsetAssertion AxisX (-74) 74), sample_store)
  /\ exists out h',
       overlay_images_node (image_at 0 100 100 3) (image_at 1 50 50 4) fifty
         PIXEL_OFFSET 0 0 74 0 sample_store
       = (Ok out, h').
Proof.
  split.
  - apply (pixel_offset_validation (image_at 0 100 100 3)
             (image_at 1 50 50 4) fifty 0 0 75 0 sample_store
             fifty_ne_0 eq_refl eq_refl); reflexivity.
  - apply (pixel_offset_validation (image_at 0 100 100 3)
             (image_at 1 50 50 4) fifty 0 0 74 0 sample_store
             fifty_ne_0 eq_refl eq_refl);
      try reflexivity; try (simpl; lia).
    vm_compute. split; discriminate.
Defined.

(** C2 as stated fails in two ways.  With opacity 0 the node returns the
    base before it looks at the offsets: for Wb = 100 and Wo = 50 the
    offset 75, outside the range, raises nothing.  And the node truncates
    the half-sum where the claim rounds it: for Wb = 100 and Wo = 51 the
    claimed bound is round(75.5) = 76, the offset 75 lies inside
    -75 .. 75, and the node raises. *)
Lemma pixel_offset_validation_counterexample :
  (fst (overlay_images_node (image_at 0 100 100 3) (image_at 1 50 50 4)
          0%Qc PIXEL_OFFSET 0 0 75 0 sample_store)
   = Ok (image_at 0 100 100 3)
   /\ ~ offset_in_range 75 100 50)
  /\ (fst (overlay_images_node (image_at 0 100 100 3) (image_at 1 50 51 4)
             fifty PIXEL_OFFSET 0 0 75 0 sample_store)
      = Raise (OffsetAssertion AxisX (-74) 74)
      /\ offset_in_range 75 100 51
      /\ offset_in_range 0 100 50).
Proof.
  split; split; try reflexivity.
  - unfold offset_in_range. vm_compute. intros [_ H]. apply H. reflexivity.
  - split; unfold offset_in_range; vm_compute; split; discriminate.
Qed.

(** ** Full opacity and an opaque overlay *)

Lemma hundred_percent : (Q2Qc 100 / Q2Qc 100)%Qc = 1%Qc.
Proof. apply Qc_is_canon. reflexivity. Qed.

Lemma straight_alpha_opaque (o b : Qc) : straight_alpha 1%Qc o b = o.
Proof. unfold straight_alpha. ring. Qed.

Lemma as_bgr_length (c : Z) (b : pixel) :
  sane_channels c = true -> Z.of_nat (length b) = c ->
  exists b0 b1 b2, as_bgr b = [b0; b1; b2].
Proof.
  intros Hs Hl. apply sane_channels_cases in Hs.
  destruct b as [| v0 [| v1 [| v2 [| v3 [| v4 b]]]]]; simpl in Hl;
    try lia; simpl; eauto.
Qed.

(** Blending a fully opaque overlay pixel at opacity 100 over any base pixel
    yields the overlay pixel, taken to BGRA. *)
Lemma blend_opaque (oc bc : Z) (p b : pixel) :
  sane_channels oc = true -> sane_channels bc = true ->
  Z.of_nat (length p) = oc -> Z.of_nat (length b) = bc ->
  alpha_of p = 1%Qc ->
  blend_pixel 4 (opacity_applied (Q2Qc 100) oc p) b = bgra_pixel oc p.
Proof.
  intros Hso Hsb Hlp Hlb Ha.
  destruct (as_bgr_length bc b Hsb Hlb) as (b0 & b1 & b2 & Eb).
  unfold blend_pixel. change (4 =? 4) with true. cbn iota. rewrite Eb.
  unfold opacity_applied. rewrite Qc_eq_bool_refl, hundred_percent.
  cbn [andb].
  apply sane_channels_cases in Hso.
  destruct p as [| v0 [| v1 [| v2 [| v3 [| v4 p]]]]]; simpl in Hlp;
    try lia;
    (replace oc with 1 by lia) || (replace oc with 3 by lia)
    || (replace oc with 4 by lia);
    cbn [Z.eqb Pos.eqb bgra_pixel nth update_nth as_bgr alpha_of
         zip_with app] in *.
  - (* grey overlay *)
    replace (1 * 1)%Qc with 1%Qc by ring.
    rewrite !straight_alpha_opaque.
    repeat f_equal. ring.
  - (* BGR overlay *)
    replace (1 * 1)%Qc with 1%Qc by ring.
    rewrite !straight_alpha_opaque.
    repeat f_equal. ring.
  - (* BGRA overlay *)
    rewrite Ha. rewrite !straight_alpha_opaque.
    repeat f_equal. ring.
Qed.

Lemma bgra_pixel_same (c : Z) (p : pixel) :
  sane_channels c = true -> Z.of_nat (length p) = c ->
  as_bgr (bgra_pixel c p) = as_bgr p
  /\ alpha_of (bgra_pixel c p) = alpha_of p.
Proof.
  intros Hs Hl. apply sane_channels_cases in Hs.
  destruct p as [| v0 [| v1 [| v2 [| v3 [| v4 p]]]]]; simpl in Hl;
    try lia;
    (replace c with 1 by lia) || (replace c with 3 by lia)
    || (replace c with 4 by lia);
    split; reflexivity.
Qed.

Lemma inside_overlaps x0 y0 bw bh ow oh y x :
  inside (intersection x0 y0 bw bh ow oh) y x = true ->
  overlaps (intersection x0 y0 bw bh ow oh) = true.
Proof.
  unfold intersection, inside, overlaps. intros H.
  repeat (apply andb_true_intro; split); lia.
Qed.

(** C6: at opacity 100 with a fully opaque overlay, on every input whose
    offsets are accepted, the node returns an image that shows, at every
    place of the base inside the intersection rectangle, the pixel of the
    overlay that the placement puts there, and at every place outside it
    the pixel of the base: the same colour samples and the same alpha, the
    blending [out = overlay * overlay_a + base * (1 - overlay_a)] leaving
    nothing of the base under an alpha of 1.0.  Where the pixel shown has
    four samples the pixel of the result is equal to it sample for sample;
    how many samples the result carries for a pixel of fewer is not stated
    here. *)
Theorem opaque_overlay_replaces_base
    (base overlay : ndarray) (p : OverlayPosition)
    (xp yp xpx ypx x0 y0 : Z) (h : heap) :
  well_formed h base -> well_formed h overlay ->
  fully_opaque h overlay ->
  overlay_anchor p (width base) (height base) (width overlay)
    (height overlay) xp yp xpx ypx = Ok (x0, y0) ->
  let i := intersection x0 y0 (width base) (height base)
             (width overlay) (height overlay) in
  exists out h',
    overlay_images_node base overlay (Q2Qc 100) p xp yp xpx ypx h
    = (Ok out, h')
    /\ forall y x, 0 <= y < height base -> 0 <= x < width base ->
         let shown :=
           if inside i y x then view h overlay (y - y0) (x - x0)
           else view h base y x in
         same_pixel (view h' out y x) shown
         /\ (length shown = 4%nat -> view h' out y x = shown).
Proof.
  intros (Hlb & Hsb & Hwb) (Hlo & Hso & Hwo) Hop Ha i.
  assert (H100 : Q2Qc 100 <> 0%Qc).
  { intros E. apply (f_equal this) in E. discriminate E. }
  rewrite (node_after_anchor _ _ _ _ _ _ _ _ _ _ H100 Ha).
  destruct (overlaps i) eqn:Hov.
  2: { exists base, h. split; [apply overlay_blend_no_overlap, Hov |].
       intros y x Hy Hx shown. subst shown.
       destruct (inside i y x) eqn:Hin.
       - apply inside_overlaps in Hin. fold i in Hin. congruence.
       - split; [split; reflexivity | reflexivity]. }
  destruct (overlay_blend_run h base overlay (Q2Qc 100) x0 y0
              Hlb Hlo Hsb Hso Hov) as (out & h' & E & _ & V).
  fold i in V.
  exists out, h'. split; [exact E |].
  intros y x Hy Hx shown. subst shown. rewrite V.
  destruct (inside i y x) eqn:Hin.
  - assert (Hr : 0 <= y - y0 < height overlay
                 /\ 0 <= x - x0 < width overlay)
      by (unfold i, intersection, inside in Hin; lia).
    destruct Hr as [Hry Hrx].
    pose proof (Hwo _ _ Hry Hrx) as Hlen.
    rewrite (blend_opaque (channels overlay) (channels base)); auto.
    split; [apply bgra_pixel_same; assumption |].
    intros H4. unfold bgra_pixel.
    replace (channels overlay) with 4 by lia. reflexivity.
  - pose proof (Hwb _ _ Hy Hx) as Hlen.
    split; [apply bgra_pixel_same; assumption |].
    intros H4. unfold bgra_pixel.
    replace (channels base) with 4 by lia. reflexivity.
Qed.

Lemma opaque_overlay_replaces_base_witness :
  exists out h',
    overlay_images_node (image_at 0 2 3 3) (image_at 3 1 1 1) (Q2Qc 100)
      BOTTOM_RIGHT 0 0 0 0 sample_store
    = (Ok out, h')
    /\ same_pixel (view h' out 1 2) [half]
    /\ same_pixel (view h' out 0 0) [half; 0%Qc; 1%Qc].
Proof.
  destruct (opaque_overlay_replaces_base
              (image_at 0 2 3 3) (image_at 3 1 1 1) BOTTOM_RIGHT
              0 0 0 0 2 1 sample_store)
    as (out & h' & E & V).
  - split; [simpl; lia | split; [reflexivity |]].
    intros y x _ _. reflexivity.
  - split; [simpl; lia | split; [reflexivity |]].
    intros y x _ _. reflexivity.
  - intros y x _ _. reflexivity.
  - reflexivity.
  - exists out, h'. split; [exact E |].
    split; [apply (V 1 2) | apply (V 0 0)]; simpl; lia.
Defined.

(** ** morphology_node *)

(** C9: with a radius of 0 or with 0 iterations the morphology node returns
    the array it was given, whatever the operation and the shape of the
    structuring element; no OpenCV function runs and the store is left as
    it was. *)
Theorem morphology_identity
    (kernel : Type) (getStructuringElement : MorphShape -> Z * Z -> kernel)
    (erode dilate : ndarray -> kernel -> Z -> M ndarray)
    (morphologyEx : ndarray -> cv2_morph -> kernel -> Z -> M ndarray)
    (img : ndarray) (op : MorphOperation) (shape : MorphShape)
    (radius iterations : Z) (h : heap) :
  radius = 0 \/ iterations = 0 ->
  morphology_node kernel getStructuringElement erode dilate morphologyEx
    img op shape radius iterations h = (Ok img, h).
Proof.
  intros H. unfold morphology_node.
  replace ((radius =? 0) || (iterations =? 0)) with true; [reflexivity |].
  symmetry. apply orb_true_iff.
  destruct H as [-> | ->]; [left | right]; reflexivity.
Qed.

Lemma morphology_identity_witness :
  morphology_node unit (fun _ _ => tt)
    (fun a _ _ => np_copy a) (fun a _ _ => np_copy a)
    (fun a _ _ _ => np_copy a)
    (image_at 0 4 4 3) GRADIENT CROSS 3 0 sample_store
  = (Ok (image_at 0 4 4 3), sample_store).
Proof.
  apply morphology_identity. right. reflexivity.
Defined.

(** ** images_to_video_node *)

Section VideoProperties.

Variable fs : filesystem.

Lemma collect_filepaths_acc ext content acc :
  fold_left
    (fun filepaths fp =>
       if isfile fs fp
          && String.eqb (get_extension fp) (ImageExtension_value ext)
       then filepaths ++ [fp]
       else filepaths)
    content acc
  = acc ++ filter (fun fp => is_frame fs ext fp = true) content.
Proof.
  revert acc. induction content as [| fp content IH]; intros acc; simpl.
  - rewrite app_nil_r. reflexivity.
  - rewrite IH, filter_cons. fold (is_frame fs ext fp).
    destruct (decide (is_frame fs ext fp = true)) as [E | E].
    + rewrite E, <- app_assoc. reflexivity.
    + apply not_true_is_false in E. rewrite E. reflexivity.
Qed.

Lemma collect_filepaths_frames dir ext :
  collect_filepaths fs ext (map (path_join dir) (listdir fs dir))
  = frames_of fs dir ext.
Proof. unfold collect_filepaths. apply collect_filepaths_acc. Qed.

End VideoProperties.

(** C10: whenever the input directory holds fewer than 5 regular files
    whose extension, lower-cased, equals the selected image extension, the
    video node raises the assertion error "Not enough images to generate a
    video", and it does so before any effect: no concatenation file is
    written, FFmpeg is not run and no file is removed. *)
Theorem too_few_images_raises
    (fs : filesystem) (mkdtemp : string -> string) (time_now : string)
    (sorted : list string -> list string)
    (ffmpeg_stderr : ffmpeg_command -> string)
    (impossible_to_open : string -> option string)
    (remove_backslash_n : string -> string)
    (image_directory : string) (image_extension : ImageExtension)
    (video_directory video_name : string) (framerate : FrameRate)
    (custom_frame_rate : Q) (video_container video_codec video_preset : string)
    (crf : Z) (w : list effect) :
  (length (frames_of fs image_directory image_extension) < 5)%nat ->
  images_to_video_node fs mkdtemp time_now sorted ffmpeg_stderr
    impossible_to_open remove_backslash_n
    image_directory image_extension video_directory video_name framerate
    custom_frame_rate video_container video_codec video_preset crf w
  = (Raise NotEnoughImages, w).
Proof.
  intros Hfew. unfold images_to_video_node.
  rewrite collect_filepaths_frames.
  replace (5 <=? Z.of_nat (length (frames_of fs image_directory image_extension)))
    with false by (symmetry; apply Z.leb_gt; lia).
  reflexivity.
Qed.

Lemma too_few_images_raises_witness :
  frames_of sample_directory "frames" PNG
  = ["frames/a.png"; "frames/b.PNG"; "frames/d.png"]%string
  /\ images_to_video_node sample_directory
       (fun prefix => String.append "/tmp/" prefix) "0.0" (fun l => l)
       (fun _ => EmptyString) (fun _ => None) (fun s => s)
       "frames" PNG "out" "video" FRAME_RATE_25_FPS 0 "mp4" "libx264"
       "none" 23 []
     = (Raise NotEnoughImages, []).
Proof.
  split; [reflexivity |].
  apply too_few_images_raises. vm_compute. lia.
Defined.

(** ** Extensions of joined paths *)

Lemma rfind_from_range i c s :
  rfind_from i c s = -1
  \/ i <= rfind_from i c s < i + Z.of_nat (String.length s).
Proof.
  revert i. induction s as [| a s IH]; intros i.
  - left. reflexivity.
  - cbn [rfind_from String.length].
    destruct (IH (i + 1)) as [E | R].
    + rewrite E. change (0 <=? -1) with false. cbn iota.
      destruct (Ascii.eqb a c); [right; lia | left; reflexivity].
    + destruct (0 <=? rfind_from (i + 1) c s); [right; lia |].
      destruct (Ascii.eqb a c); [right; lia | left; reflexivity].
Qed.

Lemma rfind_from_app i c s1 s2 :
  0 <= i ->
  rfind_from i c (String.append s1 s2) =
  if 0 <=? rfind_from (i + Z.of_nat (String.length s1)) c s2
  then rfind_from (i + Z.of_nat (String.length s1)) c s2
  else rfind_from i c s1.
Proof.
  revert i. induction s1 as [| a s1 IH]; intros i Hi.
  - cbn [String.append String.length rfind_from]. rewrite Z.add_0_r.
    destruct (rfind_from_range i c s2) as [E | R].
    + rewrite E. reflexivity.
    + replace (0 <=? rfind_from i c s2) with true
        by (symmetry; apply Z.leb_le; lia).
      reflexivity.
  - cbn [String.append String.length rfind_from].
    rewrite IH by lia.
    replace (i + 1 + Z.of_nat (String.length s1))
      with (i + Z.of_nat (S (String.length s1))) by lia.
    destruct (0 <=? rfind_from (i + Z.of_nat (S (String.length s1))) c s2)
      eqn:E2.
    + rewrite E2. reflexivity.
    + reflexivity.
Qed.

Lemma get_app_r (pre s : string) (n : nat) :
  String.get (String.length pre + n) (String.append pre s) = String.get n s.
Proof. induction pre as [| a pre IH]; simpl; [reflexivity | exact IH]. Qed.

Lemma char_at_app_r (pre s : string) (i : Z) :
  0 <= i ->
  char_at (Z.of_nat (String.length pre) + i) (String.append pre s)
  = char_at i s.
Proof.
  intros Hi. unfold char_at.
  replace (Z.to_nat (Z.of_nat (String.length pre) + i))
    with (String.length pre + Z.to_nat i)%nat by lia.
  apply get_app_r.
Qed.

Lemma has_non_dot_app_r (pre s : string) (n : nat) (i : Z) :
  0 <= i ->
  has_non_dot n (Z.of_nat (String.length pre) + i) (String.append pre s)
  = has_non_dot n i s.
Proof.
  revert i. induction n as [| n IH]; intros i Hi; [reflexivity |].
  cbn [has_non_dot]. rewrite char_at_app_r by exact Hi.
  replace (Z.of_nat (String.length pre) + i + 1)
    with (Z.of_nat (String.length pre) + (i + 1)) by lia.
  rewrite IH by lia. reflexivity.
Qed.

Lemma length_append (pre s : string) :
  String.length (String.append pre s)
  = (String.length pre + String.length s)%nat.
Proof. induction pre as [| a pre IH]; simpl; [reflexivity | now rewrite IH]. Qed.

Lemma substring_app_r (pre s : string) (n m : nat) :
  substring (String.length pre + n) m (String.append pre s) = substring n m s.
Proof. induction pre as [| a pre IH]; simpl; [reflexivity | exact IH]. Qed.

Lemma str_from_app_r (pre s : string) (i : Z) :
  0 <= i ->
  str_from (Z.of_nat (String.length pre) + i) (String.append pre s)
  = str_from i s.
Proof.
  intros Hi. unfold str_from. rewrite length_append.
  replace (Z.to_nat (Z.of_nat (String.length pre) + i))
    with (String.length pre + Z.to_nat i)%nat by lia.
  rewrite substring_app_r. f_equal. lia.
Qed.

Lemma rfind_from_shift i c s :
  0 <= i ->
  rfind_from i c s =
  if 0 <=? rfind c s then i + rfind c s else -1.
Proof.
  unfold rfind. revert i. induction s as [| a s IH]; intros i Hi.
  - reflexivity.
  - cbn [rfind_from]. rewrite (IH (i + 1)), (IH (0 + 1)) by lia.
    destruct (rfind_from_range 0 c s) as [E | R].
    + rewrite E. simpl.
      destruct (Ascii.eqb a c);
        [change (0 <=? 0) with true | change (0 <=? -1) with false];
        cbn iota; lia.
    + rewrite !(proj2 (Z.leb_le 0 (rfind_from 0 c s))) by lia.
      rewrite !(proj2 (Z.leb_le 0 (i + 1 + rfind_from 0 c s))) by lia.
      rewrite !(proj2 (Z.leb_le 0 (0 + 1 + rfind_from 0 c s))) by lia.
      lia.
Qed.

Lemma rfind_app c pre s :
  rfind c (String.append pre s) =
  if 0 <=? rfind c s then Z.of_nat (String.length pre) + rfind c s
  else rfind c pre.
Proof.
  unfold rfind at 1. rewrite rfind_from_app by lia.
  rewrite (rfind_from_shift (0 + Z.of_nat (String.length pre))) by lia.
  destruct (0 <=? rfind c s) eqn:E.
  - apply Z.leb_le in E.
    replace (0 <=? 0 + Z.of_nat (String.length pre) + rfind c s) with true
      by (symmetry; apply Z.leb_le; lia).
    lia.
  - reflexivity.
Qed.

Lemma rfind_range c s :
  rfind c s = -1 \/ 0 <= rfind c s < Z.of_nat (String.length s).
Proof. unfold rfind. destruct (rfind_from_range 0 c s); [left | right]; lia. Qed.

(** A prefix that is empty or ends in the separator does not change the
    extension of a name without separator. *)
Lemma splitext_ext_directory (pre name : string) :
  rfind "/"%char name = -1 ->
  pre = EmptyString
  \/ (exists pre', pre = String.append pre' (String "/"%char EmptyString)) ->
  splitext_ext (String.append pre name) = splitext_ext name.
Proof.
  intros Hname [-> | [pre' Hpre]]; [reflexivity |].
  set (L := Z.of_nat (String.length pre)).
  assert (HL : L = Z.of_nat (String.length pre') + 1).
  { unfold L. rewrite Hpre, length_append. simpl. lia. }
  assert (Hsep_pre : rfind "/"%char pre = L - 1).
  { rewrite Hpre, rfind_app. change (rfind "/"%char "/"%string) with 0.
    change (0 <=? 0) with true. cbn iota. lia. }
  assert (Hdot_pre : rfind "."%char pre < L - 1).
  { rewrite Hpre, rfind_app. change (rfind "."%char "/"%string) with (-1).
    change (0 <=? -1) with false. cbn iota.
    destruct (rfind_range "."%char pre'); lia. }
  unfold splitext_ext.
  rewrite !rfind_app, Hname. change (0 <=? -1) with false. cbn iota.
  rewrite Hsep_pre. fold L.
  destruct (rfind_range "."%char name) as [Ed | Rd].
  - rewrite Ed. change (0 <=? -1) with false. cbn iota.
    change (-1 <? -1) with false. cbn iota.
    replace (L - 1 <? rfind "."%char pre) with false
      by (symmetry; apply Z.ltb_ge; lia).
    reflexivity.
  - replace (0 <=? rfind "."%char name) with true
      by (symmetry; apply Z.leb_le; lia).
    cbn iota.
    replace (L - 1 <? L + rfind "."%char name) with true
      by (symmetry; apply Z.ltb_lt; lia).
    replace (-1 <? rfind "."%char name) with true
      by (symmetry; apply Z.ltb_lt; lia).
    cbn iota.
    replace (L - 1 + 1) with (L + 0) by lia.
    replace (L + rfind "."%char name - (L + 0))
      with (rfind "."%char name - (-1 + 1)) by lia.
    unfold L. rewrite has_non_dot_app_r by lia.
    rewrite str_from_app_r by lia.
    reflexivity.
Qed.

Lemma str_endswith_split c s :
  str_endswith c s = true ->
  exists s', s = String.append s' (String c EmptyString).
Proof.
  induction s as [| a s IH]; [discriminate |].
  destruct s as [| b s].
  - cbn [str_endswith]. intros E. apply Ascii.eqb_eq in E. subst a.
    exists EmptyString. reflexivity.
  - intros E. destruct (IH E) as [s' Hs'].
    exists (String a s'). cbn [String.append]. rewrite <- Hs'. reflexivity.
Qed.

Lemma append_sep (a b : string) :
  String.append a (String "/"%char b)
  = String.append (String.append a (String "/"%char EmptyString)) b.
Proof. induction a as [| c a IH]; simpl; [reflexivity | now rewrite IH]. Qed.

(** The extension of a directory entry is that of its name: joining the
    directory in front of a name without separator does not change what
    [get_extension] returns. *)
Lemma get_extension_join (image_directory name : string) :
  rfind "/"%char name = -1 ->
  get_extension (path_join image_directory name) = get_extension name.
Proof.
  intros Hname. unfold get_extension. f_equal.
  unfold path_join.
  assert (Hstart : str_startswith "/"%char name = false).
  { destruct name as [| a name]; [reflexivity |].
    cbn [str_startswith]. destruct (Ascii.eqb a "/"%char) eqn:E; [| reflexivity].
    exfalso. unfold rfind in Hname. cbn [rfind_from] in Hname. rewrite E in Hname.
    destruct (0 <=? rfind_from (0 + 1) "/"%char name) eqn:E1.
    - apply Z.leb_le in E1. lia.
    - discriminate Hname. }
  rewrite Hstart.
  destruct (String.length image_directory =? 0)%nat eqn:Hlen.
  - destruct image_directory; [| discriminate Hlen]. reflexivity.
  - cbn [orb]. destruct (str_endswith "/"%char image_directory) eqn:Hend.
    + apply splitext_ext_directory; [exact Hname |].
      right. apply str_endswith_split, Hend.
    + rewrite append_sep.
      apply splitext_ext_directory; [exact Hname |].
      right. eexists. reflexivity.
Qed.

(** The frames of a directory, told by the names of its entries: when no
    listed name contains a separator (as is the case of every listing), the
    frames are the entries that are regular files and whose own extension,
    lower-cased, is the selected one. *)
Lemma frames_of_by_name (fs : filesystem) (image_directory : string)
    (image_extension : ImageExtension) :
  Forall (fun name => rfind "/"%char name = -1)
    (listdir fs image_directory) ->
  frames_of fs image_directory image_extension
  = map (path_join image_directory)
      (filter (fun name =>
                 isfile fs (path_join image_directory name)
                 && String.eqb (get_extension name)
                      (ImageExtension_value image_extension) = true)
         (listdir fs image_directory)).
Proof.
  unfold frames_of.
  induction (listdir fs image_directory) as [| name names IH];
    intros Hnames; [reflexivity |].
  inversion Hnames as [| ? ? Hname Hrest]; subst.
  cbn [map]. rewrite filter_cons, (filter_cons _ name names).
  specialize (IH Hrest).
  assert (Hb : is_frame fs image_extension (path_join image_directory name)
               = isfile fs (path_join image_directory name)
                 && String.eqb (get_extension name)
                      (ImageExtension_value image_extension)).
  { unfold is_frame.
    rewrite (get_extension_join image_directory name Hname). reflexivity. }
  destruct (decide (is_frame fs image_extension
                      (path_join image_directory name) = true)) as [D1 | D1],
           (decide (isfile fs (path_join image_directory name)
                    && String.eqb (get_extension name)
                         (ImageExtension_value image_extension) = true))
             as [D2 | D2];
    try congruence; cbn [map]; rewrite IH; reflexivity.
Qed.

(** ** Placement: further properties of lines 164-198 *)

Lemma fixed_anchor_range_neg f b o :
  f = 0%Q \/ f = (1 # 2)%Q \/ f = 1%Q ->
  b <= o -> b - o <= fixed_anchor f b o <= 0.
Proof.
  intros [-> | [-> | ->]] Hle.
  - rewrite fixed_anchor_0. lia.
  - rewrite fixed_anchor_half.
    Z.to_euclidean_division_equations. lia.
  - rewrite fixed_anchor_1. lia.
Qed.

Lemma fixed_anchor_meets f b o :
  f = 0%Q \/ f = (1 # 2)%Q \/ f = 1%Q ->
  0 < b -> 0 < o ->
  fixed_anchor f b o < b /\ 0 < fixed_anchor f b o + o.
Proof.
  intros Hf Hb Ho.
  destruct (Z_le_gt_dec o b) as [Hle | Hgt].
  - pose proof (fixed_anchor_range f b o Hf Hle). lia.
  - pose proof (fixed_anchor_range_neg f b o Hf ltac:(lia)). lia.
Qed.

Lemma percent_anchor_meets p b o :
  -100 <= p <= 100 -> 0 < b -> 0 < o ->
  percent_anchor p b o < b /\ 0 < percent_anchor p b o + o.
Proof.
  intros Hp Hb Ho. rewrite percent_anchor_quot.
  assert (Hn : -100 * o <= (100 + p) * b - 100 * o < 200 * b) by nia.
  revert Hn. generalize ((100 + p) * b - 100 * o). intros n Hn.
  Z.to_euclidean_division_equations. lia.
Qed.

(** X1: in each of the nine fixed position modes, an overlay at least as
    large as the base on both axes (the base being of positive size) is
    anchored at or before the origin and covers the whole base: the
    intersection rectangle is the base itself, so blending reaches every
    pixel. *)
Theorem fixed_modes_cover_base
    (p : OverlayPosition) (bw bh ow oh xp yp xpx ypx : Z) :
  is_fixed p = true ->
  0 < bw <= ow -> 0 < bh <= oh ->
  exists x0 y0,
    overlay_anchor p bw bh ow oh xp yp xpx ypx = Ok (x0, y0)
    /\ bw - ow <= x0 <= 0 /\ bh - oh <= y0 <= 0
    /\ intersection x0 y0 bw bh ow oh = (0, bw, 0, bh)
    /\ overlaps (intersection x0 y0 bw bh ow oh) = true.
Proof.
  intros Hp Hw Hh.
  destruct (factor_values p) as [Hfx Hfy].
  pose proof (fixed_anchor_range_neg _ bw ow Hfx ltac:(lia)) as Rx.
  pose proof (fixed_anchor_range_neg _ bh oh Hfy ltac:(lia)) as Ry.
  exists (fixed_anchor (horizontal_factor p) bw ow),
         (fixed_anchor (vertical_factor p) bh oh).
  split; [apply overlay_anchor_fixed, Hp |].
  split; [exact Rx |]. split; [exact Ry |].
  assert (Hi : intersection (fixed_anchor (horizontal_factor p) bw ow)
                 (fixed_anchor (vertical_factor p) bh oh) bw bh ow oh
               = (0, bw, 0, bh)).
  { unfold intersection. rewrite !Z.max_l, !Z.min_r by lia. reflexivity. }
  split; [exact Hi |].
  rewrite Hi. unfold overlaps.
  repeat (apply andb_true_intro; split); lia.
Qed.

Lemma fixed_modes_cover_base_witness :
  overlay_anchor CENTERED_RIGHT 3 2 6 5 0 0 0 0 = Ok (-3, -1)
  /\ intersection (-3) (-1) 3 2 6 5 = (0, 3, 0, 2).
Proof.
  destruct (fixed_modes_cover_base CENTERED_RIGHT 3 2 6 5 0 0 0 0
              eq_refl ltac:(lia) ltac:(lia))
    as (x0 & y0 & Ha & _ & _ & Hi & _).
  simpl in Ha. injection Ha as <- <-.
  split; [reflexivity | exact Hi].
Defined.

(** X2: for a base and an overlay of positive size, every anchor the node
    accepts within the ranges its inputs declare meets the base: in the
    nine fixed modes, in percent-offset mode with both percentages within
    -100 .. 100 (the range of the sliders), and in pixel-offset mode
    whenever the two offset assertions pass.  The empty-intersection return
    of line 198 is therefore reached only by percent offsets beyond the
    slider range or by an image without pixels. *)
Theorem accepted_offsets_overlap
    (p : OverlayPosition) (bw bh ow oh xp yp xpx ypx x0 y0 : Z) :
  0 < bw -> 0 < bh -> 0 < ow -> 0 < oh ->
  (p = PERCENT_OFFSET -> -100 <= xp <= 100 /\ -100 <= yp <= 100) ->
  overlay_anchor p bw bh ow oh xp yp xpx ypx = Ok (x0, y0) ->
  overlaps (intersection x0 y0 bw bh ow oh) = true.
Proof.
  intros Hbw Hbh How Hoh Hrange Ha.
  assert (Hx : x0 < bw /\ 0 < x0 + ow /\ y0 < bh /\ 0 < y0 + oh).
  { destruct (is_fixed p) eqn:Hfix.
    - rewrite (overlay_anchor_fixed _ _ _ _ _ _ _ _ _ Hfix) in Ha.
      injection Ha as <- <-.
      destruct (factor_values p) as [Hfx Hfy].
      pose proof (fixed_anchor_meets _ bw ow Hfx Hbw How).
      pose proof (fixed_anchor_meets _ bh oh Hfy Hbh Hoh). lia.
    - destruct p; try discriminate Hfix.
      + destruct (Hrange eq_refl) as [Hxp Hyp].
        cbn [overlay_anchor] in Ha. injection Ha as <- <-.
        pose proof (percent_anchor_meets xp bw ow Hxp Hbw How).
        pose proof (percent_anchor_meets yp bh oh Hyp Hbh Hoh). lia.
      + apply overlay_anchor_pixel_ok in Ha.
        destruct Ha as (Vx & Vy & -> & ->).
        pose proof (pixel_anchor_meets xpx bw ow Vx Hbw How).
        pose proof (pixel_anchor_meets ypx bh oh Vy Hbh Hoh). lia. }
  apply overlaps_axes; lia.
Qed.

Lemma accepted_offsets_overlap_witness :
  overlaps (intersection 8 (-2) 10 8 4 4) = true.
Proof.
  apply (accepted_offsets_overlap PERCENT_OFFSET 10 8 4 4 100 (-100) 0 0);
    try lia.
  reflexivity.
Defined.

(** X3: the anchor of pixel-offset mode on one axis.  When
    [base_dim - overlay_dim] is even the anchor is the offset added to the
    exact half difference.  When it is odd, [round] lands on the even
    neighbour of the half: the anchor is always an even coordinate, one
    half above or below the exact position, so that of two consecutive
    offsets one pair shares an anchor and the next is two pixels apart. *)
Theorem pixel_anchor_parity (px b o : Z) :
  (Z.even (b - o) = true -> pixel_anchor px b o = px + (b - o) / 2)
  /\ (Z.even (b - o) = false ->
      Z.even (pixel_anchor px b o) = true
      /\ (2 * pixel_anchor px b o = 2 * px + (b - o) - 1
          \/ 2 * pixel_anchor px b o = 2 * px + (b - o) + 1)).
Proof.
  rewrite pixel_anchor_half, py_round_half.
  rewrite (Zeven_mod (b - o)), (Zeven_mod (2 * px + (b - o))).
  split; intros Hd.
  - destruct (Z.eqb_spec ((b - o) mod 2) 0) as [E |]; [| discriminate].
    replace ((2 * px + (b - o)) mod 2 =? 0) with true
      by (symmetry; apply Z.eqb_eq; revert E;
          Z.to_euclidean_division_equations; lia).
    revert E. Z.to_euclidean_division_equations. lia.
  - destruct (Z.eqb_spec ((b - o) mod 2) 0) as [| N]; [discriminate |].
    replace ((2 * px + (b - o)) mod 2 =? 0) with false
      by (symmetry; apply Z.eqb_neq; revert N;
          Z.to_euclidean_division_equations; lia).
    destruct (Z.even ((2 * px + (b - o)) / 2)) eqn:He.
    + split; [exact He |]. left. revert N.
      Z.to_euclidean_division_equations. lia.
    + split.
      * rewrite Z.even_add, He. reflexivity.
      * right. revert N. Z.to_euclidean_division_equations. lia.
Qed.

Lemma pixel_anchor_parity_witness :
  Z.even (pixel_anchor 1 4 1) = true
  /\ pixel_anchor 3 5 1 = 3 + (5 - 1) / 2.
Proof.
  split.
  - apply (proj2 (pixel_anchor_parity 1 4 1)). reflexivity.
  - apply (proj1 (pixel_anchor_parity 3 5 1)). reflexivity.
Defined.

(** X4: the placement is monotone in the offset.  On a base of
    non-negative size a larger percent offset never gives a smaller anchor,
    and a larger pixel offset never gives a smaller anchor. *)
Theorem anchors_monotone (b o : Z) :
  (forall p p', 0 <= b -> p <= p' ->
     percent_anchor p b o <= percent_anchor p' b o)
  /\ (forall px px', px <= px' ->
        pixel_anchor px b o <= pixel_anchor px' b o).
Proof.
  split.
  - intros p p' Hb Hp. rewrite !percent_anchor_quot.
    apply Z.quot_le_mono; [lia | nia].
  - intros px px' Hpx. rewrite !pixel_anchor_half.
    pose proof (py_round_half_bounds (2 * px + (b - o))) as (A1 & A2 & A3).
    pose proof (py_round_half_bounds (2 * px' + (b - o))) as (B1 & B2 & B3).
    destruct (Z.eq_dec px px') as [-> | Hne]; [lia |].
    destruct (Z.even (2 * px + (b - o))) eqn:Ea.
    + specialize (A3 eq_refl). lia.
    + destruct (Z.even (2 * px' + (b - o))) eqn:Eb.
      * specialize (B3 eq_refl). lia.
      * (* both halves: the two values differ by an integer >= 1 *)
        rewrite !py_round_half, Ea, Eb.
        assert (Hfl : (2 * px + (b - o)) / 2 + 1 <= (2 * px' + (b - o)) / 2).
        { rewrite Zeven_mod in Ea, Eb. revert Ea Eb.
          destruct (Z.eqb_spec ((2 * px + (b - o)) mod 2) 0);
            [discriminate |].
          destruct (Z.eqb_spec ((2 * px' + (b - o)) mod 2) 0);
            [discriminate |].
          intros _ _. revert n n0.
          Z.to_euclidean_division_equations. lia. }
        destruct (Z.even ((2 * px + (b - o)) / 2)),
                 (Z.even ((2 * px' + (b - o)) / 2)); lia.
Qed.

Lemma anchors_monotone_witness :
  percent_anchor (-30) 10 4 <= percent_anchor 55 10 4
  /\ pixel_anchor 1 4 1 <= pixel_anchor 2 4 1.
Proof.
  split.
  - apply (proj1 (anchors_monotone 10 4)); lia.
  - apply (proj2 (anchors_monotone 4 1)); lia.
Defined.

(** ** The node as a whole: exceptions, aliasing and blended pixels *)

(** X5: on images that are in the store and have 1, 3 or 4 channels the
    node raises nothing but its own offset assertions.  In every mode other
    than pixel-offset it always returns an image; in particular the crop of
    the overlay and the region of the base always have the same size, so
    neither the host's blending nor the final assignment can fail. *)
Theorem only_offset_assertions_raise
    (base overlay : ndarray) (opacity : Qc) (p : OverlayPosition)
    (xp yp xpx ypx : Z) (h : heap) :
  (buf base < length h)%nat -> (buf overlay < length h)%nat ->
  sane_channels (channels base) = true ->
  sane_channels (channels overlay) = true ->
  let run := overlay_images_node base overlay opacity p xp yp xpx ypx h in
  (p <> PIXEL_OFFSET -> exists out h', run = (Ok out, h'))
  /\ (forall e, fst run = Raise e ->
        p = PIXEL_OFFSET /\ opacity <> 0%Qc
        /\ exists a lo hi, e = OffsetAssertion a lo hi).
Proof.
  intros Hlb Hlo Hsb Hso run. subst run.
  destruct (overlay_anchor p (width base) (height base) (width overlay)
              (height overlay) xp yp xpx ypx) as [[x0 y0] | e'] eqn:Ha.
  - destruct (node_returns base overlay opacity p xp yp xpx ypx x0 y0 h
                Hlb Hlo Hsb Hso Ha) as (out & h' & E).
    split; [intros _; eauto |].
    intros e He. rewrite E in He. discriminate He.
  - destruct (overlay_anchor_raise_inv _ _ _ _ _ _ _ _ _ _ Ha)
      as [Hp (a & lo & hi & Ee)].
    split; [intros Hne; contradiction |].
    intros e He. split; [exact Hp |].
    destruct (Qcanon.Qc_eq_dec opacity 0) as [-> | Hop].
    + unfold overlay_images_node in He. rewrite Qc_eq_bool_refl in He.
      discriminate He.
    + split; [exact Hop |].
      rewrite (node_anchor_raises _ _ _ _ _ _ _ _ _ h Hop Ha) in He.
      injection He as <-. injection Ee as ->. eauto.
Qed.

Lemma only_offset_assertions_raise_witness :
  exists out h',
    overlay_images_node (image_at 0 3 5 3) (image_at 1 9 2 4) fifty
      PERCENT_OFFSET 70 (-20) 0 0 sample_store
    = (Ok out, h').
Proof.
  apply (only_offset_assertions_raise (image_at 0 3 5 3) (image_at 1 9 2 4)
           fifty PERCENT_OFFSET 70 (-20) 0 0 sample_store);
    try reflexivity; try (simpl; lia).
  discriminate.
Defined.

(** X6: what the returned array shares with the inputs.  When blending
    runs, the returned array lives in a buffer allocated during the call:
    it is neither the base nor the overlay nor a view of them.  On the two
    paths that skip blending the node returns the base array itself, not a
    copy, so a later write to the result is a write to the base. *)
Theorem result_is_fresh_or_the_base
    (base overlay : ndarray) (opacity : Qc) (p : OverlayPosition)
    (xp yp xpx ypx : Z) (h h' : heap) (out : ndarray) :
  overlay_images_node base overlay opacity p xp yp xpx ypx h = (Ok out, h') ->
  if blending_runs base overlay opacity p xp yp xpx ypx
  then (length h <= buf out)%nat
  else out = base.
Proof.
  intros Hrun.
  destruct (respects_overlay_images_node h base overlay opacity p
              xp yp xpx ypx h) as [_ Hr]; [reflexivity |].
  rewrite Hrun in Hr. cbn [fst] in Hr.
  destruct (blending_runs base overlay opacity p xp yp xpx ypx).
  - exact (proj1 Hr).
  - exact Hr.
Qed.

Lemma result_is_fresh_or_the_base_witness :
  exists out h',
    overlay_images_node (image_at 0 2 3 3) (image_at 2 1 1 3)
      fifty CENTERED 0 0 0 0 sample_store
    = (Ok out, h')
    /\ (length sample_store <= buf out)%nat.
Proof.
  exists (image_at 7 2 3 4),
    (snd (overlay_images_node (image_at 0 2 3 3) (image_at 2 1 1 3)
            fifty CENTERED 0 0 0 0 sample_store)).
  split; [reflexivity |].
  apply (result_is_fresh_or_the_base (image_at 0 2 3 3) (image_at 2 1 1 3)
           fifty CENTERED 0 0 0 0 sample_store
           (snd (overlay_images_node (image_at 0 2 3 3) (image_at 2 1 1 3)
                   fifty CENTERED 0 0 0 0 sample_store))).
  reflexivity.
Defined.

Lemma opacity_applied_pixel (opacity : Qc) (c : Z) (p : pixel) :
  sane_channels c = true -> Z.of_nat (length p) = c ->
  as_bgr (opacity_applied opacity c p) = as_bgr p
  /\ alpha_of (opacity_applied opacity c p)
     = (alpha_of p * (opacity / Q2Qc 100))%Qc.
Proof.
  intros Hs Hl. unfold opacity_applied.
  destruct (Qc_eq_bool opacity (Q2Qc 100) && (c =? 4)) eqn:Hcond.
  - apply andb_true_iff in Hcond. destruct Hcond as [Hop _].
    apply Qc_eq_bool_correct in Hop. subst opacity.
    rewrite hundred_percent. split; [reflexivity | ring].
  - apply sane_channels_cases in Hs.
    destruct p as [| v0 [| v1 [| v2 [| v3 [| v4 p]]]]]; simpl in Hl;
      try lia;
      (replace c with 1 by lia) || (replace c with 3 by lia)
      || (replace c with 4 by lia);
      cbn [Z.eqb Pos.eqb bgra_pixel nth update_nth as_bgr alpha_of];
      split; reflexivity.
Qed.

(** X7: the pixels of the result at any non-zero opacity.  For well-formed
    images whose footprint meets the base the node returns an image that,
    outside the intersection, shows the base's pixels taken to BGRA, and
    inside it the blend of the overlay pixel at (y - y0, x - x0) over the
    base pixel at (y, x): each colour sample is
    [overlay * a + base * (1 - a)] with [a] the overlay's alpha (1.0 for an
    overlay without alpha) multiplied by [opacity / 100].  The shortcut
    taken at opacity 100 for a four-channel overlay obeys the same rule. *)
Theorem blended_pixels
    (base overlay : ndarray) (opacity : Qc) (p : OverlayPosition)
    (xp yp xpx ypx x0 y0 : Z) (h : heap) :
  well_formed h base -> well_formed h overlay ->
  opacity <> 0%Qc ->
  overlay_anchor p (width base) (height base) (width overlay)
    (height overlay) xp yp xpx ypx = Ok (x0, y0) ->
  let i := intersection x0 y0 (width base) (height base)
             (width overlay) (height overlay) in
  overlaps i = true ->
  exists out h',
    overlay_images_node base overlay opacity p xp yp xpx ypx h
    = (Ok out, h')
    /\ forall y x, 0 <= y < height base -> 0 <= x < width base ->
         let pb := view h base y x in
         let po := view h overlay (y - y0) (x - x0) in
         let a := (alpha_of po * (opacity / Q2Qc 100))%Qc in
         view h' out y x =
         if inside i y x
         then zip_with (straight_alpha a) (as_bgr po) (as_bgr pb)
              ++ [(a + alpha_of pb * (1 - a))%Qc]
         else bgra_pixel (channels base) pb.
Proof.
  intros (Hlb & Hsb & Hwb) (Hlo & Hso & Hwo) Hop Ha i Hov.
  rewrite (node_after_anchor _ _ _ _ _ _ _ _ _ _ Hop Ha).
  destruct (overlay_blend_run h base overlay opacity x0 y0
              Hlb Hlo Hsb Hso Hov) as (out & h' & E & _ & V).
  fold i in V.
  exists out, h'. split; [exact E |].
  intros y x Hy Hx pb po a. rewrite V.
  destruct (inside i y x) eqn:Hin; [| reflexivity].
  assert (Hr : 0 <= y - y0 < height overlay /\ 0 <= x - x0 < width overlay)
    by (unfold i, intersection, inside in Hin; lia).
  destruct (opacity_applied_pixel opacity (channels overlay) po Hso)
    as [Hbgr Halpha]; [apply Hwo; lia |].
  unfold blend_pixel. change (4 =? 4) with true. cbn iota.
  fold po. rewrite Hbgr, Halpha. reflexivity.
Qed.

Lemma blended_pixels_witness :
  exists out h',
    overlay_images_node (image_at 0 2 3 3) (image_at 1 1 1 4) fifty
      TOP_RIGHT 0 0 0 0 sample_store
    = (Ok out, h')
    /\ map this (view h' out 0 2) = [1 # 4; 1 # 4; 3 # 4; 1]%Q
    /\ map this (view h' out 1 2) = [1 # 2; 0; 1; 1]%Q.
Proof.
  destruct (blended_pixels (image_at 0 2 3 3) (image_at 1 1 1 4) fifty
              TOP_RIGHT 0 0 0 0 2 0 sample_store)
    as (out & h' & E & V).
  - split; [simpl; lia | split; [reflexivity |]].
    intros y x _ _. reflexivity.
  - split; [simpl; lia | split; [reflexivity |]].
    intros y x _ _. reflexivity.
  - exact fifty_ne_0.
  - reflexivity.
  - reflexivity.
  - exists out, h'. split; [exact E |].
    split.
    + rewrite (V 0 2) by (simpl; lia). vm_compute. reflexivity.
    + rewrite (V 1 2) by (simpl; lia). vm_compute. reflexivity.
Defined.

(** ** images_to_video.py: extensions and the collected frames *)

(** X8: the paths collected at lines 141-146, told by the names of the
    directory entries.  When no listed name contains a separator (as in
    every directory listing) the node collects, in listing order, the join
    of the directory with each entry that is a regular file and whose own
    extension, lower-cased, is the selected one: the directory part of the
    path, dots included, never changes the outcome. *)
Theorem collected_by_name
    (fs : filesystem) (image_directory : string)
    (image_extension : ImageExtension) :
  Forall (fun name => rfind "/"%char name = -1)
    (listdir fs image_directory) ->
  collect_filepaths fs image_extension
    (map (path_join image_directory) (listdir fs image_directory))
  = map (path_join image_directory)
      (filter (fun name =>
                 isfile fs (path_join image_directory name)
                 && String.eqb (get_extension name)
                      (ImageExtension_value image_extension) = true)
         (listdir fs image_directory)).
Proof.
  intros Hnames. rewrite collect_filepaths_frames.
  apply frames_of_by_name, Hnames.
Qed.

Lemma collected_by_name_witness :
  collect_filepaths sample_directory PNG
    (map (path_join "frames.v1") (listdir sample_directory "frames.v1"))
  = ["frames.v1/a.png"; "frames.v1/b.PNG"; "frames.v1/d.png";
     "frames.v1/sub.png"]%string.
Proof.
  rewrite (collected_by_name sample_directory "frames.v1" PNG).
  - reflexivity.
  - repeat constructor.
Defined.

Lemma substring_full (s : string) : substring 0 (String.length s) s = s.
Proof. induction s as [| a s IH]; simpl; [reflexivity | now rewrite IH]. Qed.

Lemma str_from_0 (s : string) : str_from 0 s = s.
Proof.
  unfold str_from. change (Z.to_nat 0) with 0%nat.
  rewrite Nat.sub_0_r. apply substring_full.
Qed.

Lemma rfind_cons c a s :
  rfind c (String a s) =
  if 0 <=? rfind c s then 1 + rfind c s
  else if Ascii.eqb a c then 0 else -1.
Proof.
  change (String a s) with (String.append (String a EmptyString) s).
  rewrite rfind_app. unfold rfind at 3. cbn [rfind_from String.length].
  change (0 <=? -1) with false. cbn iota.
  destruct (0 <=? rfind c s); [lia | reflexivity].
Qed.

(** The last occurrence of a character splits the string. *)
Lemma rfind_split c s :
  0 <= rfind c s ->
  exists pre suf,
    s = String.append pre (String c suf)
    /\ Z.of_nat (String.length pre) = rfind c s
    /\ rfind c suf = -1.
Proof.
  induction s as [| a s IH].
  - unfold rfind; cbn. lia.
  - rewrite rfind_cons. destruct (rfind_range c s) as [E | R].
    + rewrite E. change (0 <=? -1) with false. cbn iota.
      destruct (Ascii.eqb a c) eqn:Eac; [| lia].
      intros _. apply Ascii.eqb_eq in Eac. subst a.
      exists EmptyString, s. repeat split. exact E.
    + replace (0 <=? rfind c s) with true
        by (symmetry; apply Z.leb_le; lia).
      intros _. destruct IH as (pre & suf & Hs & Hl & Hn); [lia |].
      exists (String a pre), suf. cbn [String.append String.length].
      rewrite <- Hs. repeat split; [lia | exact Hn].
Qed.

Lemma ascii_lower_idem (a : ascii) : ascii_lower (ascii_lower a) = ascii_lower a.
Proof. destruct a as [[] [] [] [] [] [] [] []]; reflexivity. Qed.

Lemma ascii_lower_dot (a : ascii) :
  Ascii.eqb (ascii_lower a) "."%char = Ascii.eqb a "."%char.
Proof. destruct a as [[] [] [] [] [] [] [] []]; reflexivity. Qed.

Lemma ascii_lower_sep (a : ascii) :
  Ascii.eqb (ascii_lower a) "/"%char = Ascii.eqb a "/"%char.
Proof. destruct a as [[] [] [] [] [] [] [] []]; reflexivity. Qed.

Lemma str_lower_idem (s : string) : str_lower (str_lower s) = str_lower s.
Proof.
  induction s as [| a s IH]; simpl; [reflexivity |].
  rewrite ascii_lower_idem, IH. reflexivity.
Qed.

Lemma rfind_from_lower i c s :
  (forall a, Ascii.eqb (ascii_lower a) c = Ascii.eqb a c) ->
  rfind_from i c (str_lower s) = rfind_from i c s.
Proof.
  intros Hc. revert i. induction s as [| a s IH]; intros i; [reflexivity |].
  cbn [str_lower rfind_from]. rewrite IH, Hc. reflexivity.
Qed.

Lemma length_lower (s : string) :
  String.length (str_lower s) = String.length s.
Proof. induction s as [| a s IH]; simpl; [reflexivity | now rewrite IH]. Qed.

Lemma substring_lower (n m : nat) (s : string) :
  substring n m (str_lower s) = str_lower (substring n m s).
Proof.
  revert n m. induction s as [| a s IH]; intros n m.
  - destruct n, m; reflexivity.
  - destruct n as [| n].
    + destruct m as [| m]; [reflexivity |].
      cbn [str_lower substring]. rewrite IH. reflexivity.
    + cbn [str_lower substring]. apply IH.
Qed.

Lemma get_lower (n : nat) (s : string) :
  String.get n (str_lower s) = option_map ascii_lower (String.get n s).
Proof.
  revert n. induction s as [| a s IH]; intros n; [reflexivity |].
  destruct n as [| n]; [reflexivity |]. cbn [str_lower String.get]. apply IH.
Qed.

Lemma has_non_dot_lower (n : nat) (i : Z) (s : string) :
  has_non_dot n i (str_lower s) = has_non_dot n i s.
Proof.
  revert i. induction n as [| n IH]; intros i; [reflexivity |].
  cbn [has_non_dot]. unfold char_at. rewrite get_lower, IH.
  destruct (String.get (Z.to_nat i) s) as [a |]; [| reflexivity].
  cbn [option_map].
  destruct a as [[] [] [] [] [] [] [] []]; reflexivity.
Qed.

Lemma splitext_ext_lower (p : string) :
  splitext_ext (str_lower p) = str_lower (splitext_ext p).
Proof.
  unfold splitext_ext, rfind.
  rewrite (rfind_from_lower 0 "/"%char p ascii_lower_sep).
  rewrite (rfind_from_lower 0 "."%char p ascii_lower_dot).
  rewrite has_non_dot_lower.
  destruct (rfind_from 0 "/"%char p <? rfind_from 0 "."%char p);
    [| reflexivity].
  destruct (has_non_dot _ _ p); [| reflexivity].
  unfold str_from. rewrite length_lower. apply substring_lower.
Qed.

Lemma rfind_none_cons c a s :
  rfind c (String a s) = -1 -> Ascii.eqb a c = false /\ rfind c s = -1.
Proof.
  rewrite rfind_cons. destruct (rfind_range c s) as [E | R].
  - rewrite E. change (0 <=? -1) with false. cbn iota.
    destruct (Ascii.eqb a c); [lia | auto].
  - replace (0 <=? rfind c s) with true by (symmetry; apply Z.leb_le; lia).
    lia.
Qed.

Lemma rfind_none_app c s t :
  rfind c s = -1 -> rfind c t = -1 -> rfind c (String.append s t) = -1.
Proof.
  intros Hs Ht. rewrite rfind_app, Ht. change (0 <=? -1) with false.
  exact Hs.
Qed.

(** X9: the shape of an extension (lines 40-41).  [get_extension] returns
    either the empty string or a dot followed by a suffix that holds no
    further dot and no path separator and is unchanged by lower-casing. *)
Theorem extension_shape (filepath : string) :
  get_extension filepath = EmptyString
  \/ exists suffix,
       get_extension filepath = String "."%char suffix
       /\ rfind "."%char suffix = -1
       /\ rfind "/"%char suffix = -1
       /\ str_lower suffix = suffix.
Proof.
  unfold get_extension, splitext_ext.
  destruct (rfind "/"%char filepath <? rfind "."%char filepath) eqn:E;
    [| left; reflexivity].
  destruct (has_non_dot _ _ filepath); [| left; reflexivity].
  right. apply Z.ltb_lt in E.
  assert (Hdot : 0 <= rfind "."%char filepath)
    by (destruct (rfind_range "/"%char filepath); lia).
  destruct (rfind_split "."%char filepath Hdot) as (pre & suf & Hp & Hl & Hn).
  rewrite <- Hl in *. clear Hdot.
  exists (str_lower suf). repeat split.
  - rewrite Hp.
    replace (Z.of_nat (String.length pre))
      with (Z.of_nat (String.length pre) + 0) by lia.
    rewrite str_from_app_r by lia. rewrite str_from_0. reflexivity.
  - unfold rfind. rewrite (rfind_from_lower 0 "."%char suf ascii_lower_dot).
    exact Hn.
  - unfold rfind. rewrite (rfind_from_lower 0 "/"%char suf ascii_lower_sep).
    fold (rfind "/"%char suf).
    rewrite Hp, rfind_app, rfind_cons in E.
    destruct (rfind_range "/"%char suf) as [E1 | R1]; [exact E1 |].
    rewrite !(proj2 (Z.leb_le 0 (rfind "/"%char suf))) in E by lia.
    rewrite !(proj2 (Z.leb_le 0 (1 + rfind "/"%char suf))) in E by lia.
    lia.
  - apply str_lower_idem.
Qed.

(** X10: extensions do not depend on letter case (lines 40-41).  Two
    ASCII paths that are equal once lower-cased have the same extension,
    so a frame named with an upper-case or mixed-case extension is selected
    like its lower-case spelling. *)
Theorem extension_ignores_case (p q : string) :
  str_isascii p = true -> str_isascii q = true ->
  str_lower p = str_lower q -> get_extension p = get_extension q.
Proof.
  intros _ _ Hpq. unfold get_extension.
  rewrite <- (str_lower_idem (splitext_ext p)),
          <- (str_lower_idem (splitext_ext q)).
  rewrite <- !splitext_ext_lower, Hpq. reflexivity.
Qed.

Lemma extension_ignores_case_witness :
  get_extension "frames/Shot.01.PNG" = get_extension "FRAMES/shot.01.png"
  /\ get_extension "frames/Shot.01.PNG" = ".png"%string.
Proof.
  split; [| reflexivity].
  apply (extension_ignores_case "frames/Shot.01.PNG" "FRAMES/shot.01.png");
    reflexivity.
Defined.

Lemma rfind_dots c (n : nat) : c <> "."%char -> rfind c (dots n) = -1.
Proof.
  intros Hc. induction n as [| n IH]; [reflexivity |].
  cbn [dots]. rewrite rfind_cons, IH. change (0 <=? -1) with false.
  cbn iota. destruct (Ascii.eqb_spec "."%char c) as [E | _];
    [congruence | reflexivity].
Qed.

Lemma rfind_dot_dots (n : nat) : rfind "."%char (dots n) = Z.of_nat n - 1.
Proof.
  induction n as [| n IH]; [reflexivity |].
  cbn [dots]. rewrite rfind_cons, IH.
  destruct n as [| n].
  - reflexivity.
  - replace (0 <=? Z.of_nat (S n) - 1) with true
      by (symmetry; apply Z.leb_le; lia).
    lia.
Qed.

Lemma length_dots (n : nat) : String.length (dots n) = n.
Proof. induction n as [| n IH]; simpl; [reflexivity | now rewrite IH]. Qed.

Lemma get_dots (n i : nat) (rest : string) :
  (i < n)%nat ->
  String.get i (String.append (dots n) rest) = Some "."%char.
Proof.
  revert i. induction n as [| n IH]; intros i Hi; [lia |].
  destruct i as [| i]; [reflexivity |].
  cbn [dots String.append String.get]. apply IH. lia.
Qed.

Lemma has_non_dot_dots (k n : nat) (i : Z) (rest : string) :
  0 <= i -> i + Z.of_nat k <= Z.of_nat n ->
  has_non_dot k i (String.append (dots n) rest) = false.
Proof.
  revert i. induction k as [| k IH]; intros i Hi Hk; [reflexivity |].
  cbn [has_non_dot]. unfold char_at. rewrite get_dots by lia.
  apply IH; lia.
Qed.

(** X11: names without an extension (lines 40-41, 141-146).  A directory
    entry made of leading dots followed by text without a dot, such as a
    hidden file named like an extension or a name with no dot at all, has
    the empty extension; its path is never among the collected frames,
    whichever extension is selected. *)
Theorem dotfiles_are_not_frames
    (fs : filesystem) (image_directory rest : string) (n : nat)
    (image_extension : ImageExtension) (content : list string) :
  rfind "."%char rest = -1 ->
  rfind "/"%char rest = -1 ->
  let name := String.append (dots n) rest in
  get_extension (path_join image_directory name) = EmptyString
  /\ path_join image_directory name
       ∉ collect_filepaths fs image_extension content.
Proof.
  intros Hdot Hsep name.
  assert (Hname : rfind "/"%char name = -1).
  { unfold name. apply rfind_none_app; [| exact Hsep].
    apply rfind_dots. discriminate. }
  assert (Hext : get_extension (path_join image_directory name) = EmptyString).
  { rewrite (get_extension_join image_directory name Hname).
    unfold get_extension, splitext_ext. rewrite Hname.
    unfold name at 1 2. rewrite rfind_app, Hdot.
    change (0 <=? -1) with false. cbn iota. rewrite rfind_dot_dots.
    destruct (-1 <? Z.of_nat n - 1); [| reflexivity].
    unfold name. rewrite has_non_dot_dots by lia. reflexivity. }
  split; [exact Hext |].
  unfold collect_filepaths. rewrite collect_filepaths_acc, app_nil_l.
  rewrite list_elem_of_filter. intros [Hf _].
  unfold is_frame in Hf. rewrite Hext in Hf.
  apply andb_prop in Hf. destruct Hf as [_ Hf].
  destruct image_extension; discriminate Hf.
Qed.

Lemma dotfiles_are_not_frames_witness :
  get_extension (path_join "frames" ".png") = EmptyString
  /\ path_join "frames" ".png"
       ∉ collect_filepaths sample_directory PNG
           ["frames/.png"; "frames/a.png"]%string.
Proof.
  apply (dotfiles_are_not_frames sample_directory "frames" "png" 1 PNG);
    reflexivity.
Defined.

(** X12: one extension at a time (lines 141-146).  No path is collected
    under two different extensions: a file named like a JPG frame is never
    taken for a JPEG frame, nor the other way round. *)
Theorem extensions_are_exclusive
    (fs : filesystem) (e1 e2 : ImageExtension)
    (content1 content2 : list string) (fp : string) :
  e1 <> e2 ->
  fp ∈ collect_filepaths fs e1 content1 ->
  fp ∉ collect_filepaths fs e2 content2.
Proof.
  intros Hne. unfold collect_filepaths.
  rewrite !collect_filepaths_acc, !app_nil_l, !list_elem_of_filter.
  unfold is_frame. intros [H1 _] [H2 _].
  apply andb_prop in H1, H2. destruct H1 as [_ H1], H2 as [_ H2].
  apply String.eqb_eq in H1, H2. rewrite H1 in H2.
  destruct e1, e2; try discriminate H2; contradiction.
Qed.

Lemma extensions_are_exclusive_witness :
  "frames/c.jpg"%string
    ∈ collect_filepaths sample_directory JPG
        (map (path_join "frames") (listdir sample_directory "frames"))
  /\ "frames/c.jpg"%string
       ∉ collect_filepaths sample_directory JPEG
           (map (path_join "frames") (listdir sample_directory "frames")).
Proof.
  assert (H : "frames/c.jpg"%string
    ∈ collect_filepaths sample_directory JPG
        (map (path_join "frames") (listdir sample_directory "frames"))).
  { vm_compute. apply list_elem_of_here. }
  split; [exact H |].
  apply (extensions_are_exclusive sample_directory JPG JPEG _ _ _
           ltac:(discriminate) H).
Defined.

(** ** images_to_video.py: the concatenation file and the error scan *)

Lemma append_assoc (a b c : string) :
  String.append (String.append a b) c = String.append a (String.append b c).
Proof. induction a as [| x a IH]; simpl; [reflexivity | now rewrite IH]. Qed.

Lemma str_split_not_nil sep s : str_split sep s <> [].
Proof.
  induction s as [| a s IH]; [discriminate |].
  cbn [str_split]. destruct (str_split sep s) as [| cur rest];
    [discriminate |].
  destruct (Ascii.eqb a sep); discriminate.
Qed.

(** Splitting after a first line that holds no separator. *)
Lemma str_split_line sep s t :
  rfind sep s = -1 ->
  str_split sep (String.append s (String sep t)) = s :: str_split sep t.
Proof.
  induction s as [| a s IH]; intros Hs.
  - cbn [String.append str_split].
    pose proof (str_split_not_nil sep t) as Hn.
    destruct (str_split sep t) as [| cur rest]; [contradiction |].
    rewrite Ascii.eqb_refl. reflexivity.
  - apply rfind_none_cons in Hs. destruct Hs as [Ha Hs].
    cbn [String.append str_split]. rewrite (IH Hs), Ha. reflexivity.
Qed.

Lemma concatenation_text_acc (paths : list string) (acc : string) :
  fold_left
    (fun text p =>
       String.append text
         (String.append "file '"
            (String.append p (String.append "' " newline))))
    paths acc
  = String.append acc (concatenation_text paths).
Proof.
  unfold concatenation_text. revert acc.
  induction paths as [| p paths IH]; intros acc.
  - cbn [fold_left]. induction acc as [| x acc IHa]; simpl;
      [reflexivity | now rewrite <- IHa].
  - cbn [fold_left]. rewrite IH, (IH (String.append EmptyString _)).
    cbn [String.append]. rewrite append_assoc. reflexivity.
Qed.

(** X13: the concatenation file, read back (lines 152-158).  When no frame
    path holds a line feed, the text written for FFmpeg splits at line
    feeds into exactly one line per path, in the order given, each of the
    form file 'path' followed by a space, and then the empty remainder
    after the final line feed. *)
Theorem concatenation_file_lines (paths : list string) :
  Forall (fun p => rfind line_feed p = -1) paths ->
  str_split line_feed (concatenation_text paths)
  = map (fun p => String.append "file '" (String.append p "' ")) paths
    ++ [EmptyString].
Proof.
  induction 1 as [| p paths Hp _ IH]; [reflexivity |].
  unfold concatenation_text. cbn [fold_left].
  rewrite concatenation_text_acc. cbn [map app]. rewrite <- IH.
  replace (String.append
             (String.append EmptyString
                (String.append "file '"
                   (String.append p (String.append "' " newline))))
             (concatenation_text paths))
    with (String.append (String.append "file '" (String.append p "' "))
            (String line_feed (concatenation_text paths))).
  - apply str_split_line.
    apply rfind_none_app; [reflexivity |].
    apply rfind_none_app; [exact Hp | reflexivity].
  - cbn [String.append]. rewrite !append_assoc. reflexivity.
Qed.

Lemma concatenation_file_lines_witness :
  str_split line_feed (concatenation_text ["f/1.png"; "f/2.png"]%string)
  = ["file 'f/1.png' "; "file 'f/2.png' "; ""]%string.
Proof.
  apply (concatenation_file_lines ["f/1.png"; "f/2.png"]%string).
  repeat constructor.
Defined.

Section ErrorScan.

Variable impossible_to_open : string -> option string.
Variable remove_backslash_n : string -> string.



End ErrorScan.





(** ** A transparent overlay *)

(** X16: a fully transparent overlay changes nothing that shows.  For
    well-formed images, if every pixel of the overlay has alpha 0 then,
    whatever the opacity and the position, every pixel of the returned
    image has the colour samples and the alpha of the base pixel at the
    same place (a base without alpha counting as opaque); only the channel
    layout may differ, the blending path returning BGRA. *)
Theorem transparent_overlay_keeps_base
    (base overlay : ndarray) (opacity : Qc) (p : OverlayPosition)
    (xp yp xpx ypx : Z) (h h' : heap) (out : ndarray) :
  well_formed h base -> well_formed h overlay ->
  (forall y x, 0 <= y < height overlay -> 0 <= x < width overlay ->
     alpha_of (view h overlay y x) = 0%Qc) ->
  overlay_images_node base overlay opacity p xp yp xpx ypx h
  = (Ok out, h') ->
  forall y x, 0 <= y < height base -> 0 <= x < width base ->
    as_bgr (view h' out y x) = as_bgr (view h base y x)
    /\ alpha_of (view h' out y x) = alpha_of (view h base y x).
Proof.
  intros (Hlb & Hsb & Hwb) (Hlo & Hso & Hwo) Hclear Hrun y x Hy Hx.
  destruct (Qcanon.Qc_eq_dec opacity 0) as [-> | Hop].
  { unfold overlay_images_node in Hrun. rewrite Qc_eq_bool_refl in Hrun.
    injection Hrun as <- <-. split; reflexivity. }
  destruct (overlay_anchor p (width base) (height base) (width overlay)
              (height overlay) xp yp xpx ypx) as [[x0 y0] | e] eqn:Ha.
  2: { rewrite (node_anchor_raises _ _ _ _ _ _ _ _ _ h Hop Ha) in Hrun.
       discriminate Hrun. }
  rewrite (node_after_anchor _ _ _ _ _ _ _ _ _ _ Hop Ha) in Hrun.
  destruct (overlaps (intersection x0 y0 (width base) (height base)
                        (width overlay) (height overlay))) eqn:Hov.
  2: { rewrite (overlay_blend_no_overlap _ _ _ _ _ h Hov) in Hrun.
       injection Hrun as <- <-. split; reflexivity. }
  destruct (overlay_blend_run h base overlay opacity x0 y0
              Hlb Hlo Hsb Hso Hov) as (out2 & h2 & E & _ & V).
  rewrite E in Hrun. injection Hrun as <- <-.
  rewrite V.
  destruct (inside _ y x) eqn:Hin.
  - assert (Hr : 0 <= y - y0 < height overlay /\ 0 <= x - x0 < width overlay)
      by (unfold intersection, inside in Hin; lia).
    destruct Hr as [Hry Hrx].
    pose proof (Hwo _ _ Hry Hrx) as Hlen.
    destruct (opacity_applied_pixel opacity (channels overlay)
                (view h overlay (y - y0) (x - x0)) Hso Hlen)
      as [Hbgr Halpha].
    rewrite (Hclear _ _ Hry Hrx) in Halpha.
    assert (Hz : alpha_of (opacity_applied opacity (channels overlay)
                             (view h overlay (y - y0) (x - x0))) = 0%Qc)
      by (rewrite Halpha; ring).
    destruct (as_bgr_length _ _ Hso Hlen) as (o0 & o1 & o2 & Eo).
    destruct (as_bgr_length _ _ Hsb (Hwb _ _ Hy Hx)) as (b0 & b1 & b2 & Eb).
    unfold blend_pixel. change (4 =? 4) with true. cbn iota.
    rewrite Hz, Hbgr, Eo, Eb. cbn [zip_with app as_bgr alpha_of].
    unfold straight_alpha.
    split; [f_equal; [| f_equal; [| f_equal]] |]; ring.
  - apply bgra_pixel_same; [exact Hsb | apply Hwb; lia].
Qed.

Lemma transparent_overlay_keeps_base_witness :
  let store := [flat [half; 0%Qc; 1%Qc]; flat [1%Qc; 1%Qc; 1%Qc; 0%Qc]] in
  let run :=
    overlay_images_node (image_at 0 2 3 3) (image_at 1 1 2 4) fifty
      BOTTOM_CENTERED 0 0 0 0 store in
  exists out,
    fst run = Ok out
    /\ as_bgr (view (snd run) out 1 1) = [half; 0%Qc; 1%Qc]
    /\ alpha_of (view (snd run) out 1 1) = 1%Qc.
Proof.
  intros store run.
  exists (image_at 5 2 3 4). split; [reflexivity |].
  apply (transparent_overlay_keeps_base (image_at 0 2 3 3)
           (image_at 1 1 2 4) fifty BOTTOM_CENTERED 0 0 0 0 store (snd run)
           (image_at 5 2 3 4)).
  - split; [simpl; lia | split; [reflexivity |]]. intros; reflexivity.
  - split; [simpl; lia | split; [reflexivity |]]. intros; reflexivity.
  - intros; reflexivity.
  - reflexivity.
  - simpl; lia.
  - simpl; lia.
Defined.

(** ** text_as_image.py: font size and reference point *)

Lemma py_truediv_positive (a b : Z) :
  0 < b ->
  exists q, py_truediv (inject_Z a * 100) (inject_Z b) = Some q
            /\ py_int q = Z.quot (100 * a) b.
Proof.
  intros Hb. unfold py_truediv.
  destruct (Qeq_bool (inject_Z b) 0) eqn:E.
  - apply Qeq_bool_iff in E. unfold Qeq in E. simpl in E. lia.
  - eexists. split; [reflexivity |].
    rewrite (py_int_Qeq _ ((100 * a) # Z.to_pos b)).
    + unfold py_int. cbn [Qnum Qden]. rewrite Z2Pos.id by lia. reflexivity.
    + destruct b as [| b | b]; try lia.
      unfold Qeq, Qdiv, Qmult, Qinv, inject_Z. cbn. lia.
Qed.

Lemma py_truediv_none (a b : Z) :
  py_truediv (inject_Z a * 100) (inject_Z b) = None <-> b = 0.
Proof.
  unfold py_truediv. destruct (Qeq_bool (inject_Z b) 0) eqn:E.
  - apply Qeq_bool_iff in E. unfold Qeq in E. simpl in E.
    split; [lia | reflexivity].
  - split; [discriminate |]. intros ->. discriminate E.
Qed.

Lemma font_size_none (width height w_ref h_ref line_count : Z) :
  font_size width height w_ref h_ref line_count = None
  <-> w_ref = 0 \/ h_ref * line_count = 0.
Proof.
  unfold font_size.
  pose proof (py_truediv_none width w_ref) as Hw.
  pose proof (py_truediv_none height (h_ref * line_count)) as Hh.
  destruct (py_truediv (inject_Z width * 100) (inject_Z w_ref)).
  - destruct (py_truediv (inject_Z height * 100)
                (inject_Z (h_ref * line_count))).
    + split; [discriminate |]. intros [E | E].
      * apply Hw in E. discriminate E.
      * apply Hh in E. discriminate E.
    + split; [intros _; right; apply Hh; reflexivity | reflexivity].
  - split; [intros _; left; apply Hw; reflexivity | reflexivity].
Qed.

Lemma longest_from_in (best : string) (lines : list string) :
  longest_from best lines ∈ best :: lines.
Proof.
  revert best. induction lines as [| line lines IH]; intros best.
  - apply list_elem_of_here.
  - cbn [longest_from].
    specialize (IH (if (String.length best <? String.length line)%nat
                    then line else best)).
    apply elem_of_cons in IH. destruct IH as [E | IH].
    + rewrite E.
      destruct (String.length best <? String.length line)%nat;
        [apply list_elem_of_further |]; apply list_elem_of_here.
    + do 2 apply list_elem_of_further. exact IH.
Qed.

(** X17: when the text node divides by zero (lines 215-226).  The line
    measured for the reference width is always one of the lines of the
    text, so the node never fails on [max]; it raises [ZeroDivisionError]
    exactly when that line has width 0 at size 100 (as an empty text has)
    or the reference height is 0, and it does so before anything is drawn:
    the store is left as it was. *)
Theorem zero_division_exactly
    (font : Type) (main_directory : string) (truetype : string -> Z -> font)
    (getsize : font -> string -> Z * Z) (astype_uint8 : Q -> Z)
    (draw_text : Z * Z -> Z * Z -> string -> font ->
                 TextAsImageAlignment.t -> list Z -> M ndarray)
    (text : string) (font_name : TextAsImageFont.t) (font_color : list Q)
    (alignment : TextAsImageAlignment.t) (width height : Z)
    (position : TextAsImagePosition.t) (s : heap) :
  let run :=
    text_as_image_node font main_directory truetype getsize astype_uint8
      draw_text text font_name font_color alignment width height position s in
  let font100 :=
    truetype
      (path_join (path_join main_directory "fonts")
         (TEXT_AS_IMAGE_FONTS_path font_name)) 100 in
  exists max_line,
    py_max_by_len (str_split line_feed text) = Some max_line
    /\ max_line ∈ str_split line_feed text
    /\ fst run <> inl ValueError
    /\ (fst run = inl ZeroDivisionError
        <-> fst (getsize font100 max_line) = 0
            \/ snd (getsize font100 reference_text) = 0)
    /\ (fst run = inl ZeroDivisionError -> snd run = s).
Proof.
  intros run font100. subst run. unfold text_as_image_node.
  pose proof (str_split_not_nil line_feed text) as Hne.
  destruct (str_split line_feed text) as [| line lines] eqn:El;
    [contradiction |].
  cbn [py_max_by_len]. exists (longest_from line lines).
  split; [reflexivity |]. split; [apply longest_from_in |].
  fold font100.
  set (w_ref := fst (getsize font100 (longest_from line lines))).
  set (h_ref := snd (getsize font100 reference_text)).
  pose proof (font_size_none width height w_ref h_ref
                (Z.of_nat (length (line :: lines)))) as Hnone.
  destruct (font_size width height w_ref h_ref
              (Z.of_nat (length (line :: lines)))) as [size |].
  - assert (Hok : ~ (w_ref = 0 \/ h_ref = 0)).
    { intros HE. enough (Some size = None) by discriminate.
      apply (proj2 Hnone). destruct HE as [E | E]; [left; exact E |].
      right. rewrite E. reflexivity. }
    destruct (getsize (truetype _ size) (longest_from line lines))
      as [w_text h_text].
    destruct (reference_point _ _ _ _ _) as [x_ref y_ref].
    match goal with
    | |- context [match ?m s with _ => _ end] => destruct (m s) as [[img | e] s']
    end; cbn [fst snd];
      (split; [discriminate |]);
      (split; [split; [discriminate | intros H; contradiction] |
               discriminate]).
  - cbn [fst snd]. split; [discriminate |]. split; [| reflexivity].
    split; [intros _ | reflexivity].
    destruct (proj1 Hnone eq_refl) as [E | E]; [left; exact E |].
    right. cbn [length] in E. lia.
Qed.

Lemma zero_division_exactly_witness :
  fst (text_as_image_node Z "/app" (fun _ size => size)
         (fun size s => (Z.of_nat (String.length s) * size / 2, size))
         (fun v => py_int v)
         (fun _ _ _ _ _ _ => ret (image_at 0 1 1 4))
         "" TextAsImageFont.ROBOTO_REGULAR [0%Q; 0%Q; 0%Q]
         TextAsImageAlignment.CENTERED 100 100 TextAsImagePosition.CENTERED
         sample_store)
  = inl ZeroDivisionError.
Proof.
  destruct (zero_division_exactly Z "/app" (fun _ size => size)
              (fun size s => (Z.of_nat (String.length s) * size / 2, size))
              (fun v => py_int v)
              (fun _ _ _ _ _ _ => ret (image_at 0 1 1 4))
              "" TextAsImageFont.ROBOTO_REGULAR [0%Q; 0%Q; 0%Q]
              TextAsImageAlignment.CENTERED 100 100
              TextAsImagePosition.CENTERED sample_store)
    as (max_line & E & _ & _ & Hzero & _).
  cbn in E. injection E as <-.
  apply (proj2 Hzero). left. reflexivity.
Defined.

(** X18: the size of the font (lines 224-226).  For positive reference
    measures and a non-negative image size the node always finds a font
    size; it is the largest size at which the reference measures, scaled
    in proportion from size 100, fit the image both in width and in
    height. *)
Theorem font_size_is_largest_fit
    (width height w_ref h_ref line_count : Z) :
  0 <= width -> 0 <= height ->
  0 < w_ref -> 0 < h_ref -> 0 < line_count ->
  exists size,
    font_size width height w_ref h_ref line_count = Some size
    /\ 0 <= size
    /\ size * w_ref <= 100 * width
    /\ size * (h_ref * line_count) <= 100 * height
    /\ (100 * width < (size + 1) * w_ref
        \/ 100 * height < (size + 1) * (h_ref * line_count)).
Proof.
  intros Hw Hh Hwr Hhr Hlc. unfold font_size.
  destruct (py_truediv_positive width w_ref Hwr) as (qw & -> & Ew).
  destruct (py_truediv_positive height (h_ref * line_count) ltac:(nia))
    as (qh & -> & Eh).
  eexists. split; [reflexivity |]. rewrite Ew, Eh.
  rewrite !Z.quot_div_nonneg by nia.
  assert (Hhl : 0 < h_ref * line_count) by nia.
  revert Hhl. generalize (h_ref * line_count). intros d Hd.
  pose proof (Z.div_mod (100 * width) w_ref ltac:(lia)) as D1.
  pose proof (Z.mod_pos_bound (100 * width) w_ref Hwr) as M1.
  pose proof (Z.div_mod (100 * height) d ltac:(lia)) as D2.
  pose proof (Z.mod_pos_bound (100 * height) d Hd) as M2.
  assert (P1 : 0 <= 100 * width / w_ref) by (apply Z.div_pos; lia).
  assert (P2 : 0 <= 100 * height / d) by (apply Z.div_pos; lia).
  destruct (Z.min_spec (100 * width / w_ref) (100 * height / d))
    as [[Hlt ->] | [Hle ->]]; repeat split; nia.
Qed.

Lemma font_size_is_largest_fit_witness :
  font_size 300 100 520 117 2 = Some 42.
Proof.
  destruct (font_size_is_largest_fit 300 100 520 117 2)
    as (size & E & _); try lia.
  rewrite E. f_equal.
  vm_compute in E. injection E as <-. reflexivity.
Defined.

Lemma reference_coordinate_start (dim text_dim : Z) :
  reference_coordinate (0, 1 # 2)%Q dim text_dim = py_round (text_dim # 2).
Proof.
  unfold reference_coordinate. apply py_round_Qeq.
  unfold Qeq, Qplus, Qmult, inject_Z. cbn. lia.
Qed.

Lemma reference_coordinate_middle (dim text_dim : Z) :
  reference_coordinate (1 # 2, 0)%Q dim text_dim = py_round (dim # 2).
Proof.
  unfold reference_coordinate. apply py_round_Qeq.
  unfold Qeq, Qplus, Qmult, inject_Z. cbn. lia.
Qed.

Lemma reference_coordinate_end (dim text_dim : Z) :
  reference_coordinate (1, - (1 # 2))%Q dim text_dim
  = py_round ((2 * dim - text_dim) # 2).
Proof.
  unfold reference_coordinate. apply py_round_Qeq.
  unfold Qeq, Qplus, Qmult, Qopp, inject_Z. cbn. lia.
Qed.

(** On one axis, whatever the factors of a position: the text box around
    the reference coordinate stays within half a pixel of the image. *)
Lemma reference_coordinate_inside (factors : Q * Q) (dim text_dim : Z) :
  factors = (0, 1 # 2)%Q \/ factors = (1 # 2, 0)%Q
  \/ factors = (1, - (1 # 2))%Q ->
  text_dim <= dim ->
  -1 <= 2 * reference_coordinate factors dim text_dim - text_dim
  /\ 2 * reference_coordinate factors dim text_dim + text_dim <= 2 * dim + 1.
Proof.
  intros [-> | [-> | ->]] Hfit.
  - rewrite reference_coordinate_start.
    pose proof (py_round_half_bounds text_dim). lia.
  - rewrite reference_coordinate_middle.
    pose proof (py_round_half_bounds dim). lia.
  - rewrite reference_coordinate_end.
    pose proof (py_round_half_bounds (2 * dim - text_dim)). lia.
Qed.

Lemma ref_factors_values (position : TextAsImagePosition.t) :
  let f := TEXT_AS_IMAGE_X_Y_REF_FACTORS position in
  (fst f = (0, 1 # 2)%Q \/ fst f = (1 # 2, 0)%Q
   \/ fst f = (1, - (1 # 2))%Q)
  /\ (snd f = (0, 1 # 2)%Q \/ snd f = (1 # 2, 0)%Q
      \/ snd f = (1, - (1 # 2))%Q).
Proof. destruct position; cbn; auto. Qed.

(** X19: the reference point (lines 130-140, 245-246).  The point is the
    middle of the text.  For the three left positions the left edge of the
    text box, [x_ref - w_text / 2], is within half a pixel of 0; for the
    three right positions the right edge is within half a pixel of the
    image width; for the centred ones the middle is within half a pixel of
    the middle of the image.  So in every position a text no wider than
    the image sticks out by at most half a pixel on either side. *)
Theorem reference_point_keeps_text_inside
    (position : TextAsImagePosition.t) (width height w_text h_text : Z) :
  let x_ref := fst (reference_point position width height w_text h_text) in
  let y_ref := snd (reference_point position width height w_text h_text) in
  match position with
  | TextAsImagePosition.TOP_LEFT | TextAsImagePosition.CENTERED_LEFT
  | TextAsImagePosition.BOTTOM_LEFT =>
      -1 <= 2 * x_ref - w_text <= 1
  | TextAsImagePosition.TOP_RIGHT | TextAsImagePosition.CENTERED_RIGHT
  | TextAsImagePosition.BOTTOM_RIGHT =>
      2 * width - 1 <= 2 * x_ref + w_text <= 2 * width + 1
  | _ => width - 1 <= 2 * x_ref <= width + 1
  end
  /\ (w_text <= width ->
      -1 <= 2 * x_ref - w_text /\ 2 * x_ref + w_text <= 2 * width + 1)
  /\ (h_text <= height ->
      -1 <= 2 * y_ref - h_text /\ 2 * y_ref + h_text <= 2 * height + 1).
Proof.
  intros x_ref y_ref. subst x_ref y_ref. unfold reference_point.
  cbn [fst snd].
  destruct (ref_factors_values position) as [Hx Hy].
  split; [| split].
  - pose proof (py_round_half_bounds w_text).
    pose proof (py_round_half_bounds width).
    pose proof (py_round_half_bounds (2 * width - w_text)).
    destruct position; cbn [TEXT_AS_IMAGE_X_Y_REF_FACTORS fst snd];
      rewrite ?reference_coordinate_start, ?reference_coordinate_middle,
        ?reference_coordinate_end; lia.
  - apply reference_coordinate_inside, Hx.
  - apply reference_coordinate_inside, Hy.
Qed.

Lemma reference_point_keeps_text_inside_witness :
  reference_point TextAsImagePosition.BOTTOM_RIGHT 100 40 31 15 = (84, 32)
  /\ -1 <= 2 * 84 - 31 /\ 2 * 84 + 31 <= 2 * 100 + 1.
Proof.
  split; [reflexivity |].
  apply (proj1 (proj2 (reference_point_keeps_text_inside
                         TextAsImagePosition.BOTTOM_RIGHT 100 40 31 15))).
  lia.
Defined.

(** ** overlay_images.py: overlaying twice *)

Lemma bgra_pixel_length (c : Z) (p : pixel) :
  sane_channels c = true -> Z.of_nat (length p) = c ->
  Z.of_nat (length (bgra_pixel c p)) = 4.
Proof.
  intros Hs Hl. apply sane_channels_cases in Hs.
  destruct p as [| v0 [| v1 [| v2 [| v3 [| v4 p]]]]]; simpl in Hl;
    try lia;
    (replace c with 1 by lia) || (replace c with 3 by lia)
    || (replace c with 4 by lia);
    reflexivity.
Qed.

(** An array that shows a pixel with samples has its buffer in the
    store. *)
Lemma shown_pixel_in_store (h : heap) (a : ndarray) (y x : Z) :
  view h a y x <> [] -> (buf a < length h)%nat.
Proof.
  intros Hv. destruct (lt_dec (buf a) (length h)) as [Hl | Hl];
    [exact Hl |].
  exfalso. apply Hv. unfold view, fetch.
  rewrite lookup_ge_None_2 by lia. reflexivity.
Qed.

(** X20: overlaying the same opaque overlay a second time changes nothing.
    For well-formed images and a fully opaque overlay at opacity 100, if
    the node returns an image, then running the node again with that image
    as the base, the same overlay and the same position also returns, and
    the second result shows the same pixel as the first at every place of
    the base. *)
Theorem opaque_overlay_twice
    (base overlay : ndarray) (p : OverlayPosition)
    (xp yp xpx ypx : Z) (h h' : heap) (out : ndarray) :
  well_formed h base -> well_formed h overlay ->
  fully_opaque h overlay ->
  overlay_images_node base overlay (Q2Qc 100) p xp yp xpx ypx h
  = (Ok out, h') ->
  exists out2 h'',
    overlay_images_node out overlay (Q2Qc 100) p xp yp xpx ypx h'
    = (Ok out2, h'')
    /\ forall y x, 0 <= y < height base -> 0 <= x < width base ->
         view h'' out2 y x = view h' out y x.
Proof.
  intros (Hlb & Hsb & Hwb) (Hlo & Hso & Hwo) Hop Hrun.
  assert (H100 : Q2Qc 100 <> 0%Qc).
  { intros E. apply (f_equal this) in E. discriminate E. }
  destruct (overlay_anchor p (width base) (height base) (width overlay)
              (height overlay) xp yp xpx ypx) as [[x0 y0] | e] eqn:Ha.
  2: { rewrite (node_anchor_raises _ _ _ _ _ _ _ _ _ h H100 Ha) in Hrun.
       discriminate Hrun. }
  rewrite (node_after_anchor _ _ _ _ _ _ _ _ _ _ H100 Ha) in Hrun.
  destruct (overlaps (intersection x0 y0 (width base) (height base)
                        (width overlay) (height overlay))) eqn:Hov.
  2: { rewrite (overlay_blend_no_overlap _ _ _ _ _ h Hov) in Hrun.
       injection Hrun as <- <-. exists base, h. split; [| reflexivity].
       rewrite (node_after_anchor _ _ _ _ _ _ _ _ _ _ H100 Ha).
       apply overlay_blend_no_overlap, Hov. }
  destruct (overlay_blend_run h base overlay (Q2Qc 100) x0 y0
              Hlb Hlo Hsb Hso Hov) as (out1 & h1 & E & (Hh & Hw & Hc) & V).
  assert (Hpre : h `prefix_of` h1).
  { pose proof (respects_overlay_blend h base overlay (Q2Qc 100) x0 y0 h
                  ltac:(reflexivity)) as [Hp _].
    rewrite E in Hp. exact Hp. }
  rewrite E in Hrun. injection Hrun as <- <-.
  set (i := intersection x0 y0 (width base) (height base)
              (width overlay) (height overlay)) in *.
  (* the pixels of the first result *)
  assert (V1 : forall y x, 0 <= y < height base -> 0 <= x < width base ->
            view h1 out1 y x =
            if inside i y x
            then bgra_pixel (channels overlay)
                   (view h overlay (y - y0) (x - x0))
            else bgra_pixel (channels base) (view h base y x)).
  { intros y x Hy Hx. rewrite V.
    destruct (inside i y x) eqn:Hin; [| reflexivity].
    assert (Hr : 0 <= y - y0 < height overlay
                 /\ 0 <= x - x0 < width overlay)
      by (unfold i, intersection, inside in Hin; lia).
    destruct Hr as [Hry Hrx].
    apply (blend_opaque (channels overlay) (channels base)); auto. }
  assert (Hlen : forall y x, 0 <= y < height base -> 0 <= x < width base ->
            Z.of_nat (length (view h1 out1 y x)) = 4).
  { intros y x Hy Hx. rewrite (V1 y x Hy Hx).
    destruct (inside i y x) eqn:Hin.
    - apply bgra_pixel_length; [exact Hso |]. apply Hwo;
        unfold i, intersection, inside in Hin; lia.
    - apply bgra_pixel_length; [exact Hsb |]. apply Hwb; lia. }
  assert (Hl1 : (buf out1 < length h1)%nat).
  { assert (Hb : 0 <= Z.max 0 y0 < height base
                 /\ 0 <= Z.max 0 x0 < width base)
      by (unfold i, intersection, overlaps in Hov; lia).
    apply (shown_pixel_in_store h1 out1 (Z.max 0 y0) (Z.max 0 x0)).
    intros Hnil. pose proof (Hlen _ _ (proj1 Hb) (proj2 Hb)) as Hl.
    rewrite Hnil in Hl. discriminate Hl. }
  assert (Hlo1 : (buf overlay < length h1)%nat)
    by (apply prefix_length in Hpre; lia).
  assert (Ha2 : overlay_anchor p (width out1) (height out1) (width overlay)
                  (height overlay) xp yp xpx ypx = Ok (x0, y0))
    by (rewrite Hw, Hh; exact Ha).
  rewrite (node_after_anchor _ _ _ _ _ _ _ _ _ _ H100 Ha2).
  destruct (overlay_blend_run h1 out1 overlay (Q2Qc 100) x0 y0 Hl1 Hlo1)
    as (out2 & h2 & E2 & _ & V2);
    [rewrite Hc; reflexivity | exact Hso | rewrite Hw, Hh; exact Hov |].
  exists out2, h2. split; [exact E2 |].
  intros y x Hy Hx. rewrite V2, Hw, Hh, Hc. fold i.
  destruct (inside i y x) eqn:Hin.
  - assert (Hr : 0 <= y - y0 < height overlay
                 /\ 0 <= x - x0 < width overlay)
      by (unfold i, intersection, inside in Hin; lia).
    destruct Hr as [Hry Hrx].
    rewrite (view_prefix h h1 overlay Hpre Hlo).
    rewrite (blend_opaque (channels overlay) 4); auto.
    rewrite (V1 y x Hy Hx), Hin. reflexivity.
  - reflexivity.
Qed.

Lemma opaque_overlay_twice_witness :
  let run1 :=
    overlay_images_node (image_at 0 2 3 3) (image_at 1 1 1 4) (Q2Qc 100)
      TOP_RIGHT 0 0 0 0 sample_store in
  exists out out2 h'',
    fst run1 = Ok out
    /\ overlay_images_node out (image_at 1 1 1 4) (Q2Qc 100)
         TOP_RIGHT 0 0 0 0 (snd run1) = (Ok out2, h'')
    /\ view h'' out2 0 2 = view (snd run1) out 0 2.
Proof.
  intros run1.
  destruct (opaque_overlay_twice (image_at 0 2 3 3) (image_at 1 1 1 4)
              TOP_RIGHT 0 0 0 0 sample_store (snd run1) (image_at 6 2 3 4))
    as (out2 & h'' & E & V).
  - split; [simpl; lia | split; [reflexivity |]]. intros; reflexivity.
  - split; [simpl; lia | split; [reflexivity |]]. intros; reflexivity.
  - intros y x _ _. reflexivity.
  - reflexivity.
  - exists (image_at 6 2 3 4), out2, h''.
    split; [reflexivity |]. split; [exact E |].
    apply V; simpl; lia.
Defined.
